(** * drafts-mcp: the callback correlator and the retrying invoker

    A shallow embedding of [src/callback-server.ts] (class [CallbackServer])
    and of [src/drafts-client.ts] (class [DraftsClient]), together with the
    small part of the JavaScript runtime they rely on: promises, one-shot
    timers, the clock and the event loop.

    JavaScript is single threaded: every handler, timer callback and method
    body below runs to completion before the next one starts, so each of
    them is a function from world to world. *)

From Stdlib Require Import Ascii.
From stdpp Require Import gmap strings list fin_maps pretty sorting.
From Equations Require Import Equations.

(** ** Values exchanged with the external application *)

(** What Express puts in [req.query]: a string, or (for repeated or
    bracketed keys) an array or a nested object. *)
#[local] Unset Elimination Schemes.
Inductive QueryValue :=
  | QString (s : string)
  | QArray (vs : list QueryValue)
  | QObject (fs : list (string * QueryValue)).
#[local] Set Elimination Schemes.

(** [typeof value === 'string'] *)
Definition isString (v : QueryValue) : option string :=
  match v with QString s => Some s | _ => None end.

(** JavaScript truthiness of a query value: only the empty string is falsy. *)
Definition truthy (v : QueryValue) : bool :=
  match v with QString "" => false | _ => true end.

(** [String(v)], as [new Error(v)] applies it to its message. *)
Fixpoint toString (v : QueryValue) : string :=
  match v with
  | QString s => s
  | QArray vs => String.concat "," (map toString vs)
  | QObject _ => "[object Object]"
  end.

(** [Error]: only the message matters here. *)
Record Error := mkError { message : string }.

(** types.ts, [CallbackResponse].  The [error] field is declared [string],
    but [req.query.error as string] is an unchecked cast, so at run time it
    holds whatever the query held. *)
Record CallbackResponse := mkResponse {
  cr_success : bool;
  cr_data : option (gmap string string);
  cr_error : option QueryValue
}.

(** types.ts, [PendingRequest]: [resolve] and [reject] are the two handles
    of one promise (named by its index in the promise heap), [timeout] is
    the handle returned by [setTimeout]. *)
Record PendingRequest := mkPending {
  pr_resolve : nat;
  pr_reject : nat;
  pr_timeout : nat
}.

(** ** The runtime: promises, timers, clock *)

Inductive PromiseState :=
  | Pending
  | Fulfilled (v : CallbackResponse)
  | Rejected (e : Error).

(** The closure passed to [setTimeout] in [registerRequest] captures the
    request identifier and the promise's [reject]. *)
Record Timer := mkTimer {
  t_deadline : Z;
  t_requestId : string;
  t_reject : nat
}.

(** Who called [resolve] or [reject], and for which request identifier;
    kept in a ghost log so that the calls made on each promise can be
    counted. *)
Inductive Settler := BySuccess | ByError | ByCancel | ByTimeout | ByShutdown.

Record Runtime := mkRuntime {
  promises : list PromiseState;
  timers : gmap nat Timer;      (* the live timers *)
  nextTimer : nat;
  now : Z;                      (* milliseconds *)
  settleLog : list (nat * (Settler * string))
}.

(** [this.server]: [undefined] until [start], then the handle returned by
    [app.listen]. *)
Inductive Listener := NoServer | Listening | NotListening.

Record CallbackServer := mkServer {
  port : Z;
  server : Listener;
  pendingRequests : gmap string PendingRequest
}.

Record World := mkWorld {
  this : CallbackServer;
  rt : Runtime
}.

Definition REQUEST_TIMEOUT : Z := 30000.

Definition initRuntime : Runtime :=
  {| promises := []; timers := ∅; nextTimer := 0; now := 0; settleLog := [] |}.

(** [new CallbackServer()] *)
Definition newServer : CallbackServer :=
  {| port := 0; server := NoServer; pendingRequests := ∅ |}.

Definition initWorld : World := {| this := newServer; rt := initRuntime |}.

Definition set_pending (m : gmap string PendingRequest) (s : CallbackServer) :=
  {| port := port s; server := server s; pendingRequests := m |}.

(** [new Promise(...)]: a fresh pending promise at the end of the heap. *)
Definition newPromise (r : Runtime) : nat * Runtime :=
  (length (promises r),
   {| promises := promises r ++ [Pending]; timers := timers r;
      nextTimer := nextTimer r; now := now r; settleLog := settleLog r |}).

(** A call of [resolve] or [reject]: it settles a pending promise and does
    nothing on a settled one.  Every call is logged. *)
Definition settle (p : nat) (v : PromiseState) (who : Settler * string) (r : Runtime)
  : Runtime :=
  {| promises := match promises r !! p with
                 | Some Pending => <[p := v]> (promises r)
                 | _ => promises r
                 end;
     timers := timers r; nextTimer := nextTimer r; now := now r;
     settleLog := settleLog r ++ [(p, who)] |}.

(** [setTimeout(cb, delay)]: the callback runs once, no earlier than
    [delay] ms from now. *)
Definition setTimeout (requestId : string) (rej : nat) (delay : Z) (r : Runtime)
  : nat * Runtime :=
  (nextTimer r,
   {| promises := promises r;
      timers := <[nextTimer r := mkTimer (now r + delay) requestId rej]> (timers r);
      nextTimer := S (nextTimer r); now := now r; settleLog := settleLog r |}).

Definition clearTimeout (t : nat) (r : Runtime) : Runtime :=
  {| promises := promises r; timers := delete t (timers r);
     nextTimer := nextTimer r; now := now r; settleLog := settleLog r |}.

Definition set_now (t : Z) (r : Runtime) : Runtime :=
  {| promises := promises r; timers := timers r;
     nextTimer := nextTimer r; now := t; settleLog := settleLog r |}.

(** ** CallbackServer *)

Definition timeoutMessage (requestId : string) : string :=
  "Request " +:+ requestId +:+ " timed out after " +:+ pretty REQUEST_TIMEOUT +:+ "ms".

(** [registerRequest(requestId)]; returns the new promise. *)
Definition registerRequest (requestId : string) (w : World) : nat * World :=
  let '(p, r1) := newPromise (rt w) in
  let '(t, r2) := setTimeout requestId p REQUEST_TIMEOUT r1 in
  (p, {| this := set_pending (<[requestId := mkPending p p t]> (pendingRequests (this w))) (this w);
         rt := r2 |}).

(** The timer callback of [registerRequest], run when timer [t] fires. *)
Definition fire (t : nat) (w : World) : World :=
  match timers (rt w) !! t with
  | None => w
  | Some tm =>
      {| this := set_pending (delete (t_requestId tm) (pendingRequests (this w))) (this w);
         rt := settle (t_reject tm)
                 (Rejected (mkError (timeoutMessage (t_requestId tm))))
                 (ByTimeout, t_requestId tm)
                 (clearTimeout t (rt w)) |}
  end.

Record Response := mkHttp { status : Z; body : string }.

Definition OK : Response := {| status := 200; body := "OK" |}.

(** [data[key] = value] on [data], which starts as the plain object [{}]:
    the assignment writes an own property, except under the name
    [__proto__], where it reaches the setter inherited from
    [Object.prototype], and that setter ignores a string. *)
Definition assign (key value : string) (data : gmap string string) : gmap string string :=
  if bool_decide (key = "__proto__") then data else <[key := value]> data.

(** The loop of the success handler over [Object.entries(req.query)]: the
    entries whose value is a string are assigned to [data]. *)
Definition collectData (query : gmap string QueryValue) : gmap string string :=
  map_fold (λ key value data,
              match isString value with
              | Some s => assign key s data
              | None => data
              end) ∅ query.

(** [GET /x-success/:requestId] *)
Definition xSuccess (requestId : string) (query : gmap string QueryValue) (w : World)
  : Response * World :=
  match pendingRequests (this w) !! requestId with
  | Some pending =>
      (OK, {| this := set_pending (delete requestId (pendingRequests (this w))) (this w);
              rt := settle (pr_resolve pending)
                      (Fulfilled (mkResponse true (Some (collectData query)) None))
                      (BySuccess, requestId) (clearTimeout (pr_timeout pending) (rt w)) |})
  | None => (OK, w)
  end.

(** [(req.query.error as string) || 'Unknown error'] *)
Definition errorOf (query : gmap string QueryValue) : QueryValue :=
  match query !! "error" with
  | Some v => if truthy v then v else QString "Unknown error"
  | None => QString "Unknown error"
  end.

(** [GET /x-error/:requestId] *)
Definition xError (requestId : string) (query : gmap string QueryValue) (w : World)
  : Response * World :=
  match pendingRequests (this w) !! requestId with
  | Some pending =>
      (OK, {| this := set_pending (delete requestId (pendingRequests (this w))) (this w);
              rt := settle (pr_resolve pending)
                      (Fulfilled (mkResponse false None (Some (errorOf query))))
                      (ByError, requestId) (clearTimeout (pr_timeout pending) (rt w)) |})
  | None => (OK, w)
  end.

(** [GET /x-cancel/:requestId] *)
Definition xCancel (requestId : string) (query : gmap string QueryValue) (w : World)
  : Response * World :=
  match pendingRequests (this w) !! requestId with
  | Some pending =>
      (OK, {| this := set_pending (delete requestId (pendingRequests (this w))) (this w);
              rt := settle (pr_resolve pending)
                      (Fulfilled (mkResponse false None (Some (QString "User cancelled"))))
                      (ByCancel, requestId) (clearTimeout (pr_timeout pending) (rt w)) |})
  | None => (OK, w)
  end.

Inductive Route := XSuccess | XError | XCancel.

Definition handle (r : Route) : string → gmap string QueryValue → World → Response * World :=
  match r with XSuccess => xSuccess | XError => xError | XCancel => xCancel end.

(** [getCallbackUrls(requestId)] *)
Record CallbackUrls := mkUrls { u_success : string; u_error : string; u_cancel : string }.

Definition getCallbackUrls (requestId : string) (s : CallbackServer) : CallbackUrls :=
  let baseUrl := "http://localhost:" +:+ pretty (port s) in
  {| u_success := baseUrl +:+ "/x-success/" +:+ requestId;
     u_error := baseUrl +:+ "/x-error/" +:+ requestId;
     u_cancel := baseUrl +:+ "/x-cancel/" +:+ requestId |}.

(** [start()]: [getPort()] answers [p]; [listen] succeeds or reports an
    error. *)
Definition start (p : Z) (listenErr : option Error) (w : World) : (Error + Z) * World :=
  match listenErr with
  | None => (inr p, {| this := mkServer p Listening (pendingRequests (this w)); rt := rt w |})
  | Some e => (inl e, {| this := mkServer p NotListening (pendingRequests (this w)); rt := rt w |})
  end.

(** One iteration of the loop of [stop()]. *)
Definition shutdownOne (requestId : string) (pending : PendingRequest) (r : Runtime)
  : Runtime :=
  settle (pr_reject pending) (Rejected (mkError "Server shutting down"))
    (ByShutdown, requestId) (clearTimeout (pr_timeout pending) r).

(** [stop()]; [closeErr] is what [server.close] passes to its callback.
    The result is [None] when the returned promise resolves.  (The loop
    visits the entries in the map's own order; nothing below depends on
    that order.) *)
Definition stop (closeErr : option Error) (w : World) : option Error * World :=
  let r := map_fold shutdownOne (rt w) (pendingRequests (this w)) in
  match server (this w) with
  | NoServer => (None, {| this := mkServer (port (this w)) NoServer ∅; rt := r |})
  | _ => (closeErr, {| this := mkServer (port (this w)) NotListening ∅; rt := r |})
  end.

(** [GET /health] *)
Definition health (w : World) : Z * (string * Z) := (200%Z, ("ok", port (this w))).

(** ** The event loop *)

(** Timers fire in the order of their deadlines, and in creation order
    among equal deadlines. *)
Definition timer_le (a b : nat * Timer) : Prop :=
  (t_deadline a.2 < t_deadline b.2)%Z ∨ (t_deadline a.2 = t_deadline b.2 ∧ a.1 ≤ b.1).

Global Instance timer_le_dec a b : Decision (timer_le a b).
Proof. unfold timer_le. apply _. Defined.

Definition due (t : Z) (r : Runtime) : list (nat * Timer) :=
  merge_sort timer_le (filter (λ x, (t_deadline x.2 ≤ t)%Z) (map_to_list (timers r))).

(** The clock moves forward by [dt] and every timer that has come due
    fires. *)
Definition advance (dt : Z) (w : World) : World :=
  let t := (now (rt w) + Z.max 0 dt)%Z in
  let w' := foldl (λ w x, fire x.1 w) w (due t (rt w)) in
  {| this := this w'; rt := set_now t (rt w') |}.

Inductive Event :=
  | Start (p : Z) (listenErr : option Error)
  | Register (requestId : string)
  | Http (r : Route) (requestId : string) (query : gmap string QueryValue)
  | Advance (dt : Z)
  | Stop (closeErr : option Error).

(** An HTTP request reaches a handler only while the listener is up. *)
Definition step (w : World) (e : Event) : World :=
  match e with
  | Start p err => (start p err w).2
  | Register requestId => (registerRequest requestId w).2
  | Http r requestId query =>
      match server (this w) with
      | Listening => (handle r requestId query w).2
      | _ => w
      end
  | Advance dt => advance dt w
  | Stop err => (stop err w).2
  end.

Definition run (evs : list Event) (w : World) : World := foldl step w evs.

(** The number of [resolve]/[reject] calls made on promise [p]. *)
Definition calls (p : nat) (r : Runtime) : nat :=
  length (filter (λ x, x.1 = p) (settleLog r)).

(** The query object of a URL whose keys are all different and plain. *)
Definition query (l : list (string * string)) : gmap string QueryValue :=
  list_to_map (prod_map id QString <$> l).

(** ** URL encoding *)

(** Strings are sequences of bytes: the UTF-8 form of the JavaScript
    string, which is what both encoders below work on.  A surrogate that
    is not half of a pair has no UTF-8 form; it is held as the three bytes
    [ED A0..BF 80..BF] that the same scheme gives its code unit. *)

Definition isAlnum (c : ascii) : bool :=
  let n := N_of_ascii c in
  ((48 <=? n) && (n <=? 57) || (65 <=? n) && (n <=? 90) || (97 <=? n) && (n <=? 122))%N.

Definition memChar (c : ascii) (s : string) : bool :=
  bool_decide (c ∈ String.list_ascii_of_string s).

Definition hexDigit (n : N) : ascii :=
  if (n <? 10)%N then ascii_of_N (48 + n) else ascii_of_N (55 + n).

(** [n.toString(16).toUpperCase()] for a character code below 256. *)
Definition toHexUpper (n : N) : string :=
  if (n <? 16)%N then String (hexDigit n) ""
  else String (hexDigit (n / 16)) (String (hexDigit (n mod 16)) "").

(** [%XX], as both standard encoders write an escaped byte. *)
Definition pctByte (c : ascii) : string :=
  let n := N_of_ascii c in
  String "%" (String (hexDigit (n / 16)) (String (hexDigit (n mod 16)) "")).

(** Replace every character [c] of [s] by the string [f c]. *)
Fixpoint flatMapString (f : ascii → string) (s : string) : string :=
  match s with
  | EmptyString => EmptyString
  | String c r => f c +:+ flatMapString f r
  end.

(** [encodeURIComponent]: everything is escaped except
    [A-Z a-z 0-9 - _ . ! ~ * ' ( )].  (On a string that holds an unpaired
    surrogate the built-in throws [URIError]; this is its result on every
    other string.) *)
Definition encodeURIComponent (s : string) : string :=
  flatMapString (λ c, if isAlnum c || memChar c "-_.!~*'()" then String c "" else pctByte c) s.

(** [DraftsClient.encodeURIComponentSafe] *)
Definition encodeURIComponentSafe (str : string) : string :=
  flatMapString (λ c, if memChar c "!'()*"
                      then "%" +:+ toHexUpper (N_of_ascii c)
                      else String c "")
    (encodeURIComponent str).

(** The bytes [a b c] are the form of an unpaired surrogate. *)
Definition isSurrogate (a b c : ascii) : bool :=
  bool_decide (a = "237"%char)
  && ((160 <=? N_of_ascii b) && (N_of_ascii b <=? 191))%N
  && ((128 <=? N_of_ascii c) && (N_of_ascii c <=? 191))%N.

(** The conversion to a [USVString] that [URLSearchParams.append] applies
    to both of its arguments: every unpaired surrogate becomes U+FFFD (in
    UTF-8 the bytes EF BF BD). *)
Fixpoint toUSVString (s : string) : string :=
  match s with
  | EmptyString => EmptyString
  | String a r =>
      match r with
      | String b (String c r') =>
          if isSurrogate a b c
          then String "239" (String "191" (String "189" (toUSVString r')))
          else String a (toUSVString r)
      | _ => String a (toUSVString r)
      end
  end.

(** [urlParams.append(name, value)] *)
Definition urlParamsAppend (urlParams : list (string * string)) (name value : string)
  : list (string * string) :=
  urlParams ++ [(toUSVString name, toUSVString value)].

(** The serializer behind [URLSearchParams.prototype.toString]
    (application/x-www-form-urlencoded): a space becomes [+], the bytes
    [A-Z a-z 0-9 * - . _] stay, every other byte is escaped. *)
Definition formEncode (s : string) : string :=
  flatMapString (λ c, if bool_decide (c = " "%char) then "+"
                      else if isAlnum c || memChar c "*-._" then String c ""
                      else pctByte c) s.

Definition urlParamsToString (urlParams : list (string * string)) : string :=
  String.concat "&" ((λ kv, formEncode kv.1 +:+ "=" +:+ formEncode kv.2) <$> urlParams).

(** The values of the [params] argument of [buildUrl]:
    [string | string[] | boolean | undefined]. *)
Inductive ParamValue :=
  | PString (s : string)
  | PArray (vs : list string)
  | PBool (b : bool)
  | PUndefined.

(** The body of the loop over [Object.entries(params)]. *)
Definition appendParam (urlParams : list (string * string)) (kv : string * ParamValue)
  : list (string * string) :=
  match kv.2 with
  | PUndefined => urlParams
  | PArray vs => foldl (λ urlParams v, urlParamsAppend urlParams kv.1 v) urlParams vs
  | PBool b => urlParamsAppend urlParams kv.1 (if b then "true" else "false")
  | PString s => urlParamsAppend urlParams kv.1 s
  end.

(** [DraftsClient.buildUrl]; [requestId] is what [randomUUID()] returned. *)
Definition buildUrl (s : CallbackServer) (requestId : string) (endpoint : string)
    (params : list (string * ParamValue)) : string * string :=
  let callbacks := getCallbackUrls requestId s in
  let urlParams := foldl appendParam [] params in
  let urlParams := urlParamsAppend urlParams "x-success" (u_success callbacks) in
  let urlParams := urlParamsAppend urlParams "x-error" (u_error callbacks) in
  let urlParams := urlParamsAppend urlParams "x-cancel" (u_cancel callbacks) in
  ("drafts://x-callback-url/" +:+ endpoint +:+ "?" +:+ urlParamsToString urlParams, requestId).

(** ** DraftsClient *)

(** types.ts, [Draft] *)
Record Draft := mkDraft {
  d_uuid : string;
  d_title : string;
  d_content : string;
  d_tags : list string;
  d_createdAt : string;
  d_modifiedAt : string;
  d_isFlagged : bool;
  d_isArchived : bool;
  d_isTrashed : bool
}.

(** [DraftsClientConfig] and the constructor's defaults. *)
Record DraftsClientConfig := mkConfig {
  cfg_maxRetries : option Z;
  cfg_retryDelay : option Z
}.

Record DraftsClient := mkClient {
  maxRetries : Z;
  retryDelay : Z
}.

Definition newClient (config : DraftsClientConfig) : DraftsClient :=
  {| maxRetries := default 3%Z (cfg_maxRetries config);
     retryDelay := default 1000%Z (cfg_retryDelay config) |}.

(** How a launch of [open] ends for the client: the promise of
    [execFileAsync] is fulfilled, is rejected, or is never settled (the
    call is given no timeout). *)
Inductive Launch := Launched | LaunchFailed (e : Error) | LaunchHangs.

(** What the client cannot decide: the identifiers [randomUUID()] returns,
    how the k-th launch of [open] ends, what reaches the event loop while
    the client waits for that launch (the callbacks of the application,
    time passing), and by how much the k-th retry timer is late. *)
Record Env := mkEnv {
  uuidOf : nat → string;
  launch : nat → Launch;
  during : nat → list Event;
  lateness : nat → Z
}.

(** The world of the client: the callback server it shares, and how many
    identifiers, launches and sleeps it has consumed.  [opened] is the
    list of URLs handed to [open], oldest first.  [unawaited] lists the
    promises that [openUrl] got from [registerRequest] and then left
    without ever awaiting them: when one of them is rejected, the
    rejection has no handler. *)
Record Machine := mkMachine {
  world : World;
  nUuid : nat;
  nOpen : nat;
  nSleep : nat;
  opened : list string;
  unawaited : list nat
}.

Definition initMachine (w : World) : Machine :=
  {| world := w; nUuid := 0; nOpen := 0; nSleep := 0; opened := []; unawaited := [] |}.

(** What an [async] call produces: [None] when it never returns, otherwise
    the thrown error or the returned value, and the world it leaves. *)
Definition Async (T : Type) : Type := option ((Error + T) * Machine).

(** [s.split(sep)] for a one-character separator. *)
Fixpoint split (sep : ascii) (s : string) : list string :=
  match s with
  | EmptyString => [EmptyString]
  | String c r =>
      if bool_decide (c = sep) then EmptyString :: split sep r
      else match split sep r with
           | x :: xs => String c x :: xs
           | [] => [String c EmptyString]
           end
  end.

(** [a || b] on strings, and on string fields that may be missing. *)
Definition orElse (a : option string) (b : string) : string :=
  match a with
  | Some s => if bool_decide (s = "") then b else s
  | None => b
  end.

(** [new Error(response.error || 'Unknown error from Drafts')] *)
Definition errorFromDrafts (error : option QueryValue) : Error :=
  match error with
  | Some v => mkError (if truthy v then toString v else "Unknown error from Drafts")
  | None => mkError "Unknown error from Drafts"
  end.

Section client.
Context (env : Env) (client : DraftsClient).

(** [await p] on the event loop when nothing else arrives: a settled
    promise answers at once; a pending one is only ever settled by its
    timer, so the loop idles until that timer's deadline, firing what
    comes due on the way.  With no timer left the wait never ends. *)
Definition awaitPromise (p : nat) (w : World) : option ((Error + CallbackResponse) * World) :=
  match promises (rt w) !! p with
  | Some (Fulfilled v) => Some (inr v, w)
  | Some (Rejected e) => Some (inl e, w)
  | Some Pending =>
      match map_to_list (filter (λ x, t_reject x.2 = p) (timers (rt w))) with
      | (_, tm) :: _ =>
          let w' := advance (t_deadline tm - now (rt w)) w in
          match promises (rt w') !! p with
          | Some (Fulfilled v) => Some (inr v, w')
          | Some (Rejected e) => Some (inl e, w')
          | _ => None
          end
      | [] => None
      end
  | None => None
  end.

(** [DraftsClient.openUrl].  The request is registered before the launch
    is awaited.  When the launch never returns, neither does [openUrl];
    when it fails, [openUrl] throws at once and the registered promise
    stays behind, with its table entry and its timer, and is never
    awaited. *)
Definition openUrl (url requestId : string) (m : Machine) : Async (gmap string string) :=
  let '(p, w1) := registerRequest requestId (world m) in
  let k := nOpen m in
  let w2 := run (during env k) w1 in
  let m2 w left := {| world := w; nUuid := nUuid m; nOpen := S k; nSleep := nSleep m;
                      opened := opened m ++ [url]; unawaited := left |} in
  match launch env k with
  | LaunchHangs => None
  | LaunchFailed e => Some (inl e, m2 w2 (unawaited m ++ [p]))
  | Launched =>
      match awaitPromise p w2 with
      | None => None
      | Some (inl e, w3) => Some (inl e, m2 w3 (unawaited m))
      | Some (inr response, w3) =>
          if negb (cr_success response)
          then Some (inl (errorFromDrafts (cr_error response)), m2 w3 (unawaited m))
          else Some (inr (default ∅ (cr_data response)), m2 w3 (unawaited m))
      end
  end.

(** [randomUUID()] followed by [buildUrl]. *)
Definition buildUrlM (endpoint : string) (params : list (string * ParamValue)) (m : Machine)
  : (string * string) * Machine :=
  (buildUrl (this (world m)) (uuidOf env (nUuid m)) endpoint params,
   {| world := world m; nUuid := S (nUuid m); nOpen := nOpen m; nSleep := nSleep m;
      opened := opened m; unawaited := unawaited m |}).

(** [await new Promise((resolve) => setTimeout(resolve, this.retryDelay))]:
    the timer fires [retryDelay] ms later or later still; the server's
    own timers that come due meanwhile fire too. *)
Definition sleep (m : Machine) : Machine :=
  {| world := advance (retryDelay client + Z.max 0 (lateness env (nSleep m))) (world m);
     nUuid := nUuid m; nOpen := nOpen m; nSleep := S (nSleep m); opened := opened m;
     unawaited := unawaited m |}.

(** [DraftsClient.executeWithRetry].  The retry count and the delay are
    integers here, as every configuration in the repository has them. *)
Equations executeWithRetry {T : Type} (fn : Machine → Async T) (retries : Z) (m : Machine)
  : Async T by wf (Z.to_nat retries) lt :=
executeWithRetry fn retries m :=
  match fn m with
  | None => None
  | Some (inr v, m1) => Some (inr v, m1)
  | Some (inl error, m1) =>
      match decide (retries > 0)%Z with
      | left _ => executeWithRetry fn (retries - 1) (sleep m1)
      | right _ => Some (inl error, m1)
      end
  end.
Next Obligation. lia. Qed.

(** One record per call of [fn] made by [executeWithRetry]: the world
    the call started in and what it produced. *)
Equations attempts {T : Type} (fn : Machine → Async T) (retries : Z) (m : Machine)
  : list (Machine * Async T) by wf (Z.to_nat retries) lt :=
attempts fn retries m :=
  (m, fn m) ::
  match fn m with
  | Some (inl error, m1) =>
      match decide (retries > 0)%Z with
      | left _ => attempts fn (retries - 1) (sleep m1)
      | right _ => []
      end
  | _ => []
  end.
Next Obligation. lia. Qed.

(** The common tail of every operation: build the URL, open it, hand the
    returned mapping to [k]. *)
Definition invoke {T : Type} (endpoint : string) (params : list (string * ParamValue))
    (k : gmap string string → Error + T) (m : Machine) : Async T :=
  let '((url, requestId), m1) := buildUrlM endpoint params m in
  match openUrl url requestId m1 with
  | None => None
  | Some (inl e, m2) => Some (inl e, m2)
  | Some (inr response, m2) => Some (k response, m2)
  end.

Definition optParam (v : option string) : ParamValue :=
  match v with Some s => PString s | None => PUndefined end.

(** [createDraft(params)] *)
Definition createDraftAttempt (text : string) (tags : option (list string))
    (action folder : option string) : Machine → Async unit :=
  invoke "create"
    [("text", PString text);
     ("tag", match tags with Some l => PArray l | None => PUndefined end);
     ("action", optParam action); ("folder", optParam folder)]
    (λ _, inr ()).

Definition createDraft text tags action folder : Machine → Async unit :=
  executeWithRetry (createDraftAttempt text tags action folder) (maxRetries client).

(** The part of [getDraft] after [openUrl] has returned [response]. *)
Definition parseDraft (uuid : string) (response : gmap string string) : Error + Draft :=
  if bool_decide (orElse (response !! "text") "" = "")
  then inl (mkError "No content returned from Drafts")
  else
    let content := orElse (response !! "text") "" in
    let title := orElse (response !! "title") (orElse (head (split "010" content)) "") in
    let tags := match response !! "tags" with
                | Some s => if bool_decide (s = "") then [] else split "," s
                | None => []
                end in
    inr {| d_uuid := uuid; d_title := title; d_content := content; d_tags := tags;
           d_createdAt := orElse (response !! "createdAt") "";
           d_modifiedAt := orElse (response !! "modifiedAt") "";
           d_isFlagged := bool_decide (response !! "flagged" = Some "true");
           d_isArchived := bool_decide (response !! "archived" = Some "true");
           d_isTrashed := bool_decide (response !! "trashed" = Some "true") |}.

(** [getDraft(uuid)] *)
Definition getDraftAttempt (uuid : string) : Machine → Async Draft :=
  invoke "get" [("uuid", PString uuid)] (parseDraft uuid).

Definition getDraft (uuid : string) : Machine → Async Draft :=
  executeWithRetry (getDraftAttempt uuid) (maxRetries client).

(** [appendToDraft(uuid, text)] *)
Definition appendToDraftAttempt (uuid text : string) : Machine → Async unit :=
  invoke "append" [("uuid", PString uuid); ("text", PString text)] (λ _, inr ()).

Definition appendToDraft (uuid text : string) : Machine → Async unit :=
  executeWithRetry (appendToDraftAttempt uuid text) (maxRetries client).

(** [prependToDraft(uuid, text)] *)
Definition prependToDraftAttempt (uuid text : string) : Machine → Async unit :=
  invoke "prepend" [("uuid", PString uuid); ("text", PString text)] (λ _, inr ()).

Definition prependToDraft (uuid text : string) : Machine → Async unit :=
  executeWithRetry (prependToDraftAttempt uuid text) (maxRetries client).

(** [!s] for an optional string. *)
Definition missing (s : option string) : bool := bool_decide (orElse s "" = "").

(** [openDraft(params)] *)
Definition openDraftAttempt (uuid title : option string) (m : Machine) : Async unit :=
  if missing uuid && missing title
  then Some (inl (mkError "Either uuid or title must be provided"), m)
  else invoke "open" [("uuid", optParam uuid); ("title", optParam title)] (λ _, inr ()) m.

Definition openDraft (uuid title : option string) : Machine → Async unit :=
  executeWithRetry (openDraftAttempt uuid title) (maxRetries client).

(** [runAction(actionName, text)] *)
Definition runActionAttempt (actionName text : string) : Machine → Async unit :=
  invoke "runAction" [("action", PString actionName); ("text", PString text)] (λ _, inr ()).

Definition runAction (actionName text : string) : Machine → Async unit :=
  executeWithRetry (runActionAttempt actionName text) (maxRetries client).

(** [searchDrafts(params)] *)
Definition searchDraftsAttempt (query tag folder : option string) : Machine → Async unit :=
  invoke "search" [("query", optParam query); ("tag", optParam tag);
                   ("folder", optParam folder)] (λ _, inr ()).

Definition searchDrafts (query tag folder : option string) : Machine → Async unit :=
  executeWithRetry (searchDraftsAttempt query tag folder) (maxRetries client).

End client.

(** ** The resource reader of index.ts *)

(** [s] without the prefix [p], when it starts with it. *)
Fixpoint stripPrefix (p s : string) : option string :=
  match p with
  | EmptyString => Some s
  | String c p' =>
      match s with
      | String d s' => if bool_decide (c = d) then stripPrefix p' s' else None
      | EmptyString => None
      end
  end.

(** Whether [s] holds one of the characters that [.] does not match in a
    regular expression: LF, CR, U+2028, U+2029 (in UTF-8 the bytes
    E2 80 A8 and E2 80 A9). *)
Fixpoint hasLineTerminator (s : string) : bool :=
  match s with
  | EmptyString => false
  | String c r =>
      bool_decide (c = "010"%char) || bool_decide (c = "013"%char)
      || (bool_decide (c = "226"%char)
          && match r with
             | String d (String e _) =>
                 bool_decide (d = "128"%char)
                 && (bool_decide (e = "168"%char) || bool_decide (e = "169"%char))
             | _ => false
             end)
      || hasLineTerminator r
  end.

(** [uri.match(/^draft:\/\/uuid\/(.+)$/)], group 1. *)
Definition resourceUuid (uri : string) : option string :=
  match stripPrefix "draft://uuid/" uri with
  | Some rest =>
      if bool_decide (rest = EmptyString) || hasLineTerminator rest then None else Some rest
  | None => None
  end.

(** The handler of [ReadResourceRequestSchema]: the draft it serializes
    into the answer, with the URI it echoes. *)
Definition readResource (env : Env) (client : DraftsClient) (uri : string) (m : Machine)
  : Async (string * Draft) :=
  match resourceUuid uri with
  | None => Some (inl (mkError ("Invalid resource URI: " +:+ uri)), m)
  | Some uuid =>
      match getDraft env client uuid m with
      | None => None
      | Some (inl e, m') => Some (inl e, m')
      | Some (inr draft, m') => Some (inr (uri, draft), m')
      end
  end.

(** ** The queries of DraftsDatabase *)

Definition nl : string := String "010" EmptyString.

(** [searchText.replace(/'/g, "''")] *)
Definition sqlQuote (searchText : string) : string :=
  flatMapString (λ c, if bool_decide (c = "'"%char) then "''" else String c "") searchText.

(** The literal [LIKE] is given in [searchDrafts]. *)
Definition likePattern (searchText : string) : string :=
  "'%" +:+ sqlQuote searchText +:+ "%'".

Definition searchPre : string :=
  String.concat nl
    [""; "      SELECT"; "        ZUUID as uuid,"; "        CASE ";
     "          WHEN ZTITLE IS NOT NULL AND ZTITLE != '' THEN ZTITLE";
     "          WHEN INSTR(ZCONTENT, CHAR(10)) > 0 THEN SUBSTR(ZCONTENT, 1, INSTR(ZCONTENT, CHAR(10)) - 1)";
     "          ELSE ZCONTENT"; "        END as title,"; "        ZCACHED_TAGS as tags,";
     "        ZCREATED_AT as createdAt,"; "        ZMODIFIED_AT as modifiedAt,";
     "        ZFLAGGED as isFlagged,"; "        ZFOLDER as folder";
     "      FROM ZMANAGEDDRAFT"; "      WHERE ZCONTENT LIKE "].

Definition searchMid : string := nl +:+ "         OR ZTITLE LIKE ".

Definition searchPost : string := nl +:+ "      ORDER BY ZMODIFIED_AT DESC" +:+ nl +:+ "    ".

(** The query text of [DraftsDatabase.searchDrafts]. *)
Definition searchQuery (searchText : string) : string :=
  searchPre +:+ likePattern searchText +:+ searchMid +:+ likePattern searchText
  +:+ searchPost.

Definition contentPre : string :=
  String.concat nl [""; "      SELECT ZCONTENT as content"; "      FROM ZMANAGEDDRAFT";
                    "      WHERE ZUUID = "].

Definition contentPost : string := nl +:+ "    ".

(** The query text of [DraftsDatabase.getDraftContent]. *)
Definition contentQuery (uuid : string) : string :=
  contentPre +:+ "'" +:+ uuid +:+ "'" +:+ contentPost.

(** * Vocabulary of the properties *)

(** Every live timer belongs to one promise that is still pending and on
    which neither [resolve] nor [reject] has been called; no promise has
    seen more than one such call. *)
Record RtInv (r : Runtime) : Prop := mkRtInv {
  inv_timer : ∀ t tm, timers r !! t = Some tm →
      t < nextTimer r ∧ promises r !! t_reject tm = Some Pending
      ∧ calls (t_reject tm) r = 0 ∧ (now r < t_deadline tm)%Z;
  inv_inj : ∀ t1 t2 tm1 tm2, timers r !! t1 = Some tm1 → timers r !! t2 = Some tm2 →
      t_reject tm1 = t_reject tm2 → t1 = t2;
  inv_once : ∀ p, calls p r ≤ 1;
  inv_heap : ∀ p, length (promises r) ≤ p → calls p r = 0;
  inv_pending : ∀ p, promises r !! p = Some Pending →
      calls p r = 0 ∧ ∃ t tm, timers r !! t = Some tm ∧ t_reject tm = p;
  inv_settled : ∀ p s, promises r !! p = Some s → s ≠ Pending → calls p r = 1
}.

(** Every entry of the table holds the two handles of one promise and the
    live timer that was created with it for the entry's own key. *)
Definition TableInv (w : World) : Prop :=
  ∀ id e, pendingRequests (this w) !! id = Some e →
    pr_reject e = pr_resolve e
    ∧ ∃ tm, timers (rt w) !! pr_timeout e = Some tm
            ∧ t_requestId tm = id ∧ t_reject tm = pr_resolve e.

(** The invariant of the worlds the server can reach. *)
Definition Inv (w : World) : Prop := RtInv (rt w) ∧ TableInv w.

(** The three callback handlers have one shape; they differ in the
    response they resolve with. *)
Definition fulfilment (r : Route) (q : gmap string QueryValue) : CallbackResponse * Settler :=
  match r with
  | XSuccess => (mkResponse true (Some (collectData q)) None, BySuccess)
  | XError => (mkResponse false None (Some (errorOf q)), ByError)
  | XCancel => (mkResponse false None (Some (QString "User cancelled")), ByCancel)
  end.

(** The timers of [l] fire one after the other, as in [advance]. *)
Definition fires (l : list (nat * Timer)) (w : World) : World :=
  foldl (λ w x, fire x.1 w) w l.

(** The loop of [stop()] over the table [m]. *)
Definition shutdownAll (m : gmap string PendingRequest) (r : Runtime) : Runtime :=
  map_fold shutdownOne r m.

Definition shutdownError : Error := mkError "Server shutting down".

(** The calls of [resolve]/[reject] made while going from [w] to [w']. *)
Definition settlements (w w' : World) : list (nat * (Settler * string)) :=
  drop (length (settleLog (rt w))) (settleLog (rt w')).

(** Going from [w] to [w'] only adds calls to the log, and each of them
    leaves the table without an entry for its identifier. *)
Definition Settles (w w' : World) : Prop :=
  ∃ l, settleLog (rt w') = settleLog (rt w) ++ l
       ∧ ∀ x, x ∈ l → pendingRequests (this w') !! x.2.2 = None.

(** The time that passes during a run. *)
Definition elapsed (evs : list Event) : Z :=
  foldr (λ e acc, match e with Advance dt => Z.max 0 dt + acc | _ => acc end)%Z 0%Z evs.

(** Events that are neither a callback for [id] nor a shutdown. *)
Definition undisturbed (id : string) (e : Event) : bool :=
  match e with
  | Http _ id' _ => negb (String.eqb id' id)
  | Stop _ => false
  | _ => true
  end.

(** No [registerRequest] of the run was made for an identifier that still
    had an entry in the table. *)
Fixpoint freshRegistrations (evs : list Event) (w : World) : bool :=
  match evs with
  | [] => true
  | e :: evs' =>
      match e with
      | Register id => bool_decide (pendingRequests (this w) !! id = None)
      | _ => true
      end && freshRegistrations evs' (step w e)
  end.

(** Every live timer is the timer of the table's entry for its identifier. *)
Definition Owned (w : World) : Prop :=
  ∀ t tm, timers (rt w) !! t = Some tm →
    ∃ e, pendingRequests (this w) !! t_requestId tm = Some e ∧ pr_timeout e = t.

(** C8, as the specification states it: after [stop()] every promise of
    the table is rejected with the shutdown error, the table is empty and
    no timer is left. *)
Definition stop_leaves_no_timer (evs : list Event) (err : option Error) : Prop :=
  let w := run evs initWorld in
  let w' := (stop err w).2 in
  (∀ id e, pendingRequests (this w) !! id = Some e →
     promises (rt w') !! pr_reject e = Some (Rejected (mkError "Server shutting down")))
  ∧ pendingRequests (this w') = ∅
  ∧ timers (rt w') = ∅.

(** C2, as the specification states it: registering [id] while the table
    still has an entry for it is an error, and the entry is kept. *)
Definition reRegistration_is_error (w : World) (id : string) : Prop :=
  ∀ e, pendingRequests (this w) !! id = Some e →
    let '(p, w') := registerRequest id w in
    pendingRequests (this w') !! id = Some e
    ∧ ∃ err, promises (rt w') !! p = Some (Rejected err).

(** C6, as the specification states it for the success callback: the
    outcome is a success whose mapping carries the query parameters, each
    of them. *)
Definition success_carries_query (w : World) (id : string) (q : gmap string QueryValue)
  : Prop :=
  ∀ e, pendingRequests (this w) !! id = Some e →
    ∃ data, promises (rt (xSuccess id q w).2) !! pr_resolve e
            = Some (Fulfilled (mkResponse true (Some data) None))
            ∧ ∀ k, is_Some (q !! k) → is_Some (data !! k).

(** C6, as the specification states it for the error callback: the
    failure carries the value of the [error] parameter whenever there is
    one, and "Unknown error" only when there is none. *)
Definition error_carries_parameter (w : World) (id : string) (q : gmap string QueryValue)
  : Prop :=
  ∀ e, pendingRequests (this w) !! id = Some e →
    promises (rt (xError id q w).2) !! pr_resolve e
    = Some (Fulfilled (mkResponse false None
              (Some (default (QString "Unknown error") (q !! "error"))))).

(** Events other than [start()]. *)
Definition notStart (e : Event) : bool :=
  match e with Start _ _ => false | _ => true end.

(** An attempt that threw. *)
Definition failed {T : Type} (a : Machine * Async T) : bool :=
  match a.2 with Some (inl _, _) => true | _ => false end.

(** The application answers every launch with one callback on [route]
    carrying [q]; request identifiers are id-0, id-1, ...; retry timers are
    [late] ms late. *)
Definition answering (route : Route) (q : list (string * string)) (late : Z) : Env :=
  {| uuidOf k := "id-" +:+ pretty k;
     launch _ := Launched;
     during k := [Http route ("id-" +:+ pretty k) (query q)];
     lateness _ := late |}.

(** A client whose server has just been started on port 49152. *)
Definition started : Machine := initMachine (run [Start 49152 None] initWorld).

Definition validationError : Error := mkError "Either uuid or title must be provided".

(** C4, as the specification states it: without uuid and title there is
    one attempt and no retry delay. *)
Definition validation_not_retried (env : Env) (client : DraftsClient) (m : Machine) : Prop :=
  length (attempts env client (openDraftAttempt env None None) (maxRetries client) m) = 1
  ∧ ∀ r m', openDraft env client None None m = Some (r, m') →
      nSleep m' = nSleep m ∧ now (rt (world m')) = now (rt (world m)).

(** The attempt of [getDraft] that starts in [m] gets a success outcome
    from [openUrl], and the mapping it carries has no [text], or an empty
    one. *)
Definition receivesNoText (env : Env) (uuid : string) (m : Machine) : bool :=
  let '((url, requestId), m1) := buildUrlM env "get" [("uuid", PString uuid)] m in
  match openUrl env url requestId m1 with
  | Some (inr response, _) => bool_decide (orElse (response !! "text") "" = "")
  | _ => false
  end.

Definition noContent : Error := mkError "No content returned from Drafts".

(** * Vocabulary of the further properties *)

(** ** Reading encoded text back *)

(** The characters of a string, and a test on all of them. *)
Definition chars (s : string) : list ascii := String.list_ascii_of_string s.

Definition hexValue (c : ascii) : option N :=
  let n := N_of_ascii c in
  if ((48 <=? n) && (n <=? 57))%N then Some (n - 48)%N
  else if ((65 <=? n) && (n <=? 70))%N then Some (n - 55)%N
  else if ((97 <=? n) && (n <=? 102))%N then Some (n - 87)%N
  else None.

(** Percent-decoding as the receiving side does it: [%XX] is the byte
    [XX]; with [plus] set (form decoding, as for a query string) [+] is a
    space.  A [%] that is not followed by two hex digits stays. *)
Fixpoint percentDecode (plus : bool) (s : string) : string :=
  match s with
  | EmptyString => EmptyString
  | String c rest =>
      if bool_decide (c = "%"%char) then
        match rest with
        | String h (String l r) =>
            match hexValue h, hexValue l with
            | Some a, Some b => String (ascii_of_N (16 * a + b)) (percentDecode plus r)
            | _, _ => String c (percentDecode plus rest)
            end
        | _ => String c (percentDecode plus rest)
        end
      else if plus && bool_decide (c = "+"%char) then String " " (percentDecode plus rest)
      else String c (percentDecode plus rest)
  end.

(** [s] up to the first [sep], and what follows it. *)
Fixpoint splitFirst (sep : ascii) (s : string) : string * string :=
  match s with
  | EmptyString => (EmptyString, EmptyString)
  | String c r =>
      if bool_decide (c = sep) then (EmptyString, r)
      else let '(a, b) := splitFirst sep r in (String c a, b)
  end.

(** Parsing a query string (application/x-www-form-urlencoded): cut at
    every [&], drop empty pieces, cut each piece at its first [=], decode
    name and value. *)
Definition parseQuery (s : string) : list (string * string) :=
  (λ piece, let '(k, v) := splitFirst "=" piece in
            (percentDecode true k, percentDecode true v))
  <$> filter (λ piece, piece ≠ EmptyString) (split "&" s).

(** The name/value pairs one entry of [params] stands for. *)
Definition paramPairs (kv : string * ParamValue) : list (string * string) :=
  appendParam [] kv.

(** Whether [s] holds an unpaired surrogate. *)
Fixpoint hasSurrogate (s : string) : bool :=
  match s with
  | EmptyString => false
  | String a r =>
      match r with
      | String b (String c _) => isSurrogate a b c
      | _ => false
      end || hasSurrogate r
  end.

(** The strings of an entry of [params]: its name, and its value when that
    is a string or an array of strings. *)
Definition paramStrings (kv : string * ParamValue) : list string :=
  match kv.2 with
  | PUndefined => []
  | PArray vs => kv.1 :: vs
  | PBool _ => [kv.1]
  | PString v => [kv.1; v]
  end.

(** [a] followed by the three bytes of an unpaired high surrogate (U+D800)
    and [b]: the JavaScript string ['a\uD800b']. *)
Definition loneSurrogateText : string :=
  String "a" (String "237" (String "160" (String "128" "b"))).

(** What one source character becomes in [encodeURIComponentSafe]. *)
Definition safeByte (c : ascii) : string :=
  flatMapString (λ c, if memChar c "!'()*"
                      then "%" +:+ toHexUpper (N_of_ascii c)
                      else String c "")
    (if isAlnum c || memChar c "-_.!~*'()" then String c "" else pctByte c).

(** What one source character becomes in [formEncode]. *)
Definition formByte (c : ascii) : string :=
  if bool_decide (c = " "%char) then "+"
  else if isAlnum c || memChar c "*-._" then String c ""
  else pctByte c.

(** ** Operations that come back *)

(** The call [a], made in [m], comes back with a value or an error, and
    has left no promise unawaited that was not so before. *)
Definition comesBack {T : Type} (m : Machine) (a : Async T) : Prop :=
  ∃ x m', a = Some (x, m') ∧ unawaited m' = unawaited m.

(** ** Reading an SQL string literal *)

(** What SQL takes as the text of a string literal, from just after its
    opening quote: two quotes stand for one quote, a single quote ends the
    literal.  The result is the text and what follows the literal. *)
Fixpoint readLiteralBody (s : string) : option (string * string) :=
  match s with
  | EmptyString => None
  | String c r =>
      if bool_decide (c = "'"%char) then
        match r with
        | String d r' =>
            if bool_decide (d = "'"%char)
            then (λ br, (String "'" br.1, br.2)) <$> readLiteralBody r'
            else Some (EmptyString, r)
        | EmptyString => Some (EmptyString, r)
        end
      else (λ br, (String c br.1, br.2)) <$> readLiteralBody r
  end.

Definition readLiteral (s : string) : option (string * string) :=
  match s with
  | String c r => if bool_decide (c = "'"%char) then readLiteralBody r else None
  | EmptyString => None
  end.

Definition startsWithQuote (s : string) : bool :=
  match s with String c _ => bool_decide (c = "'"%char) | EmptyString => false end.

(** * Properties of the callback server *)

(** ** Sample runs *)

Example getCallbackUrls_ex :
  getCallbackUrls "test-request-5" (mkServer 49152 Listening ∅)
  = mkUrls "http://localhost:49152/x-success/test-request-5"
           "http://localhost:49152/x-error/test-request-5"
           "http://localhost:49152/x-cancel/test-request-5".
Proof. vm_compute. reflexivity. Qed.

Example timeoutMessage_ex :
  timeoutMessage "req-D" = "Request req-D timed out after 30000ms".
Proof. vm_compute. reflexivity. Qed.

Example success_ex :
  let w := run [Start 49152 None; Register "req-A";
                Http XSuccess "req-A" (query [("text", "hello"); ("uuid", "123")])] initWorld in
  promises (rt w) !! 0 =
    Some (Fulfilled (mkResponse true (Some (list_to_map [("text", "hello"); ("uuid", "123")])) None))
  ∧ pendingRequests (this w) = ∅ ∧ timers (rt w) = ∅.
Proof. vm_compute. auto. Qed.

Example timeout_ex :
  let w := run [Start 49152 None; Register "req-D"; Advance 29999] initWorld in
  promises (rt w) !! 0 = Some Pending
  ∧ promises (rt (step w (Advance 1))) !! 0
    = Some (Rejected (mkError "Request req-D timed out after 30000ms")).
Proof. vm_compute. auto. Qed.

Example settlements_ex :
  let w := run [Start 49152 None; Register "req-A"] initWorld in
  settlements w (step w (Http XSuccess "req-A" (query [("text", "hello")])))
  = [(0, (BySuccess, "req-A"))].
Proof. vm_compute. reflexivity. Qed.

(** A callback that arrives after the timeout finds nothing to do. *)
Example late_callback_ex :
  let w := run [Start 49152 None; Register "req-D"; Advance 30000] initWorld in
  handle XSuccess "req-D" (query [("text", "late")]) w = (mkHttp 200 "OK", w)
  ∧ settleLog (rt w) = [(0, (ByTimeout, "req-D"))].
Proof. vm_compute. auto. Qed.

(** A client whose application never answers: both attempts time out,
    30000 ms each, with the retry delay in between. *)
Example silent_application_ex :
  let env := {| uuidOf k := "id-" +:+ pretty k; launch _ := Launched;
                during _ := []; lateness _ := 0%Z |} in
  ∃ m', appendToDraft env (mkClient 1 100) "U" "more" started
        = Some (inl (mkError "Request id-1 timed out after 30000ms"), m')
        ∧ now (rt (world m')) = 60100%Z
        ∧ length (opened m') = 2.
Proof. eexists. vm_compute. auto. Qed.

(** ** Invariants of the reachable worlds *)

Arguments calls : simpl never.

Lemma calls_settle p' p v who r :
  calls p' (settle p v who r) = calls p' r + (if decide (p = p') then 1 else 0).
Proof.
  unfold calls; simpl. rewrite filter_app, length_app. f_equal.
  rewrite filter_cons, filter_nil; simpl. repeat case_decide; simpl; congruence.
Qed.

Lemma calls_clearTimeout p t r : calls p (clearTimeout t r) = calls p r.
Proof. reflexivity. Qed.

Lemma settle_pending_lookup p v who r q :
  promises r !! p = Some Pending →
  promises (settle p v who r) !! q = if decide (p = q) then Some v else promises r !! q.
Proof.
  intros Hp. simpl. rewrite Hp. case_decide as Hq.
  - subst q. apply list_lookup_insert_eq. by eapply lookup_lt_Some.
  - by apply list_lookup_insert_ne.
Qed.

Lemma settle_length p v who r : length (promises (settle p v who r)) = length (promises r).
Proof. simpl. repeat case_match; try done. apply length_insert. Qed.

(** A promise that is no longer pending never changes again. *)
Lemma settle_stable p v who r q s :
  promises r !! q = Some s → s ≠ Pending → promises (settle p v who r) !! q = Some s.
Proof.
  intros Hq Hs. simpl. repeat case_match; try done.
  destruct (decide (p = q)) as [->|]; [congruence|]. by rewrite list_lookup_insert_ne.
Qed.

(** Retiring a live timer together with its promise keeps the runtime
    invariant: this is what each callback, each timeout and each step of
    [stop] does. *)
Lemma retire_inv r t tm v who :
  RtInv r → timers r !! t = Some tm → v ≠ Pending →
  RtInv (settle (t_reject tm) v who (clearTimeout t r)).
Proof.
  intros [Ht Hinj Honce Hheap Hpend Hset] Htm Hv.
  destruct (Ht _ _ Htm) as (Hlt & Hp & Hc & Hd).
  change (promises r) with (promises (clearTimeout t r)) in Hp.
  split.
  - intros t' tm' H'. simpl in H'. apply lookup_delete_Some in H' as [Hne H'].
    destruct (Ht _ _ H') as (? & ? & ? & ?).
    assert (t_reject tm ≠ t_reject tm') by (intros E; apply Hne; eauto).
    rewrite (settle_pending_lookup _ _ _ _ _ Hp), calls_settle, ?calls_clearTimeout.
    repeat case_decide; try congruence. simpl. repeat split; auto; lia.
  - intros t1 t2 tm1 tm2 H1 H2. simpl in H1, H2.
    apply lookup_delete_Some in H1 as [_ H1]. apply lookup_delete_Some in H2 as [_ H2]. eauto.
  - intros p. rewrite calls_settle, ?calls_clearTimeout. case_decide; [subst p; simpl; lia|].
    specialize (Honce p). simpl. lia.
  - intros p. rewrite settle_length, calls_settle, ?calls_clearTimeout. simpl. intros Hl.
    apply lookup_lt_Some in Hp. simpl in Hp. case_decide; [lia|]. rewrite (Hheap p Hl). done.
  - intros p. rewrite (settle_pending_lookup _ _ _ _ _ Hp), calls_settle, ?calls_clearTimeout.
    case_decide; [congruence|]. intros Hq. destruct (Hpend _ Hq) as (Hc' & t' & tm' & H' & E).
    split; [simpl; lia|]. exists t', tm'. split; [|done]. simpl.
    apply lookup_delete_Some. split; [|done]. intros ->. congruence.
  - intros p s. rewrite (settle_pending_lookup _ _ _ _ _ Hp), calls_settle, ?calls_clearTimeout.
    case_decide; [subst p; lia|]. intros Hq Hs. rewrite (Hset _ _ Hq Hs). simpl. lia.
Qed.

Lemma initWorld_inv : Inv initWorld.
Proof.
  split; [split|]; simpl; try done.
  all: intros; rewrite ?lookup_empty in *; try done; unfold calls; simpl; lia.
Qed.

Lemma calls_log p r r' : settleLog r = settleLog r' → calls p r = calls p r'.
Proof. unfold calls. by intros ->. Qed.

Lemma registerRequest_eq id w :
  registerRequest id w =
  (length (promises (rt w)),
   {| this := set_pending (<[id := mkPending (length (promises (rt w)))
                                     (length (promises (rt w))) (nextTimer (rt w))]>
                             (pendingRequests (this w))) (this w);
      rt := {| promises := promises (rt w) ++ [Pending];
               timers := <[nextTimer (rt w) :=
                             mkTimer (now (rt w) + REQUEST_TIMEOUT) id (length (promises (rt w)))]>
                           (timers (rt w));
               nextTimer := S (nextTimer (rt w)); now := now (rt w);
               settleLog := settleLog (rt w) |} |}).
Proof. reflexivity. Qed.

Lemma registerRequest_inv id w : Inv w → Inv (registerRequest id w).2.
Proof.
  intros [[Ht Hinj Honce Hheap Hpend Hset] Htab]. rewrite registerRequest_eq. simpl.
  set (r' := mkRuntime _ _ _ _ _).
  assert (Hcalls : ∀ p, calls p r' = calls p (rt w)) by (intros; by apply calls_log).
  split; [split|]; simpl.
  - intros t tm [[<- <-]|[Hne H]]%lookup_insert_Some; simpl; rewrite Hcalls.
    + rewrite lookup_app_r, Nat.sub_diag by lia. repeat split; auto; unfold REQUEST_TIMEOUT; lia.
    + destruct (Ht _ _ H) as (? & Hp & ? & ?).
      rewrite (lookup_app_l_Some _ _ _ _ Hp). repeat split; auto.
  - intros t1 t2 tm1 tm2 [[<- <-]|[Hne1 H1]]%lookup_insert_Some
      [[<- <-]|[Hne2 H2]]%lookup_insert_Some; simpl; try done.
    + destruct (Ht _ _ H2) as (_ & Hp%lookup_lt_Some & _). lia.
    + destruct (Ht _ _ H1) as (_ & Hp%lookup_lt_Some & _). lia.
    + eauto.
  - intros p. rewrite Hcalls. auto.
  - intros p. rewrite Hcalls, length_app. simpl. intros. apply Hheap. lia.
  - intros p Hp. rewrite Hcalls.
    destruct (decide (p < length (promises (rt w)))) as [Hlt|Hge].
    + rewrite lookup_app_l in Hp by done.
      destruct (Hpend _ Hp) as (? & t & tm & H & E). split; [done|].
      exists t, tm. split; [|done]. rewrite lookup_insert_ne; [done|].
      destruct (Ht _ _ H) as (? & _). lia.
    + assert (p = length (promises (rt w))) as ->.
      { apply lookup_lt_Some in Hp. rewrite length_app in Hp. simpl in Hp. lia. }
      split; [apply Hheap; lia|]. eexists _, _. rewrite lookup_insert_eq. done.
  - intros p s Hp Hs. rewrite Hcalls. apply (Hset p s); [|done].
    apply lookup_app_Some in Hp as [Hp|[_ Hp]]; [done|].
    apply list_lookup_singleton_Some in Hp as [_ <-]. done.
  - intros id' e. simpl. intros [[<- <-]|[Hne H]]%lookup_insert_Some; simpl.
    + split; [done|]. eexists. rewrite lookup_insert_eq. done.
    + destruct (Htab _ _ H) as (? & tm & Htm & ? & ?). split; [done|].
      exists tm. rewrite lookup_insert_ne; [done|].
      destruct (Ht _ _ Htm) as (? & _). lia.
Qed.

Lemma handle_eq r id q w :
  handle r id q w =
  match pendingRequests (this w) !! id with
  | Some pending =>
      (OK, {| this := set_pending (delete id (pendingRequests (this w))) (this w);
              rt := settle (pr_resolve pending) (Fulfilled (fulfilment r q).1)
                      ((fulfilment r q).2, id) (clearTimeout (pr_timeout pending) (rt w)) |})
  | None => (OK, w)
  end.
Proof. by destruct r. Qed.

Lemma handle_inv r id q w : Inv w → Inv (handle r id q w).2.
Proof.
  intros [Hrt Htab]. rewrite handle_eq.
  destruct (pendingRequests (this w) !! id) as [e|] eqn:He; [|done].
  destruct (Htab _ _ He) as (_ & tm & Htm & Hid & <-). split; simpl.
  - by apply retire_inv.
  - intros id' e'. simpl. intros [Hne H]%lookup_delete_Some.
    destruct (Htab _ _ H) as (? & tm' & Htm' & Hid' & ?). split; [done|].
    exists tm'. simpl. rewrite lookup_delete_ne; [done|]. intros E. rewrite E in Htm.
    congruence.
Qed.

Lemma fire_inv t w : Inv w → Inv (fire t w).
Proof.
  intros [Hrt Htab]. unfold fire.
  destruct (timers (rt w) !! t) as [tm|] eqn:Htm; [|done]. split; simpl.
  - by apply retire_inv.
  - intros id' e'. simpl. intros [Hne H]%lookup_delete_Some.
    destruct (Htab _ _ H) as (? & tm' & Htm' & Hid' & ?). split; [done|].
    exists tm'. simpl. rewrite lookup_delete_ne; [done|]. intros E. rewrite E in Htm.
    congruence.
Qed.

(** *** Time passing *)

Lemma fires_inv l w : Inv w → Inv (fires l w).
Proof.
  revert w. induction l as [|x l IH]; intros w Hw; [done|].
  apply IH. by apply fire_inv.
Qed.

Lemma fire_timers t w : timers (rt (fire t w)) = delete t (timers (rt w)).
Proof.
  unfold fire. destruct (timers (rt w) !! t) eqn:E; [done|]. by rewrite delete_id.
Qed.

Lemma fire_now t w : now (rt (fire t w)) = now (rt w).
Proof. unfold fire. by destruct (timers (rt w) !! t). Qed.

Lemma fires_now l w : now (rt (fires l w)) = now (rt w).
Proof.
  revert w. induction l as [|x l IH]; intros w; [done|].
  unfold fires in *; simpl. by rewrite IH, fire_now.
Qed.

Lemma fires_timers l w t tm :
  timers (rt (fires l w)) !! t = Some tm ↔ timers (rt w) !! t = Some tm ∧ t ∉ l.*1.
Proof.
  revert w. induction l as [|x l IH]; intros w.
  - simpl. split; [intros; split; [done|apply not_elem_of_nil]|tauto].
  - unfold fires in *; simpl. rewrite IH, fire_timers, lookup_delete_Some, not_elem_of_cons.
    intuition congruence.
Qed.

Lemma due_elem t r i tm :
  (i, tm) ∈ due t r ↔ timers r !! i = Some tm ∧ (t_deadline tm ≤ t)%Z.
Proof.
  unfold due. rewrite merge_sort_Permutation, list_elem_of_filter, elem_of_map_to_list.
  simpl. tauto.
Qed.

Lemma advance_eq dt w :
  advance dt w =
  let t := (now (rt w) + Z.max 0 dt)%Z in
  {| this := this (fires (due t (rt w)) w); rt := set_now t (rt (fires (due t (rt w)) w)) |}.
Proof. reflexivity. Qed.

Lemma advance_now dt w : now (rt (advance dt w)) = (now (rt w) + Z.max 0 dt)%Z.
Proof. reflexivity. Qed.

(** After [advance], the timers left are those that were not yet due. *)
Lemma advance_timers dt w t tm :
  timers (rt (advance dt w)) !! t = Some tm ↔
  timers (rt w) !! t = Some tm ∧ (now (rt w) + Z.max 0 dt < t_deadline tm)%Z.
Proof.
  rewrite advance_eq. simpl. rewrite fires_timers. split.
  - intros [H Hn]. split; [done|].
    destruct (decide (t_deadline tm ≤ now (rt w) + Z.max 0 dt)%Z) as [Hd|]; [|lia].
    exfalso. apply Hn. apply list_elem_of_fmap. exists (t, tm). split; [done|].
    by apply due_elem.
  - intros [H Hd]. split; [done|].
    intros ([t' tm'] & -> & [H' Hd']%due_elem)%list_elem_of_fmap. simpl in *.
    rewrite H in H'. injection H' as <-. lia.
Qed.

Lemma advance_inv dt w : Inv w → Inv (advance dt w).
Proof.
  intros Hw.
  pose proof (fires_inv (due (now (rt w) + Z.max 0 dt) (rt w)) w Hw) as [[Ht Hinj Honce Hheap Hpend Hset] Htab].
  pose proof (advance_timers dt w) as Hadv. rewrite advance_eq in *. simpl in *.
  split; [split|]; simpl; auto.
  intros t tm H. destruct (Ht _ _ H) as (? & ? & ? & ?).
  apply Hadv in H as [_ ?]. repeat split; auto.
Qed.

(** *** Shutdown *)

Lemma stop_eq err w :
  stop err w =
  match server (this w) with
  | NoServer => (None, {| this := mkServer (port (this w)) NoServer ∅;
                          rt := shutdownAll (pendingRequests (this w)) (rt w) |})
  | _ => (err, {| this := mkServer (port (this w)) NotListening ∅;
                  rt := shutdownAll (pendingRequests (this w)) (rt w) |})
  end.
Proof. reflexivity. Qed.

Lemma settle_other p v who r q :
  p ≠ q → promises (settle p v who r) !! q = promises r !! q.
Proof. intros. simpl. repeat case_match; try done. by apply list_lookup_insert_ne. Qed.

Lemma shutdownAll_spec w :
  Inv w → ∀ m, m ⊆ pendingRequests (this w) →
  RtInv (shutdownAll m (rt w))
  ∧ (∀ t tm, timers (shutdownAll m (rt w)) !! t = Some tm ↔
       timers (rt w) !! t = Some tm ∧ ∀ id e, m !! id = Some e → pr_timeout e ≠ t)
  ∧ (∀ id e, m !! id = Some e →
       promises (shutdownAll m (rt w)) !! pr_reject e = Some (Rejected shutdownError))
  ∧ (∀ p, (∀ id e, m !! id = Some e → pr_reject e ≠ p) →
       promises (shutdownAll m (rt w)) !! p = promises (rt w) !! p
       ∧ calls p (shutdownAll m (rt w)) = calls p (rt w)).
Proof.
  intros [Hrt Htab] m. unfold shutdownAll.
  apply (map_fold_weak_ind (λ r m, m ⊆ pendingRequests (this w) →
    RtInv r
    ∧ (∀ t tm, timers r !! t = Some tm ↔
         timers (rt w) !! t = Some tm ∧ ∀ id e, m !! id = Some e → pr_timeout e ≠ t)
    ∧ (∀ id e, m !! id = Some e → promises r !! pr_reject e = Some (Rejected shutdownError))
    ∧ (∀ p, (∀ id e, m !! id = Some e → pr_reject e ≠ p) →
         promises r !! p = promises (rt w) !! p ∧ calls p r = calls p (rt w)))); clear m.
  - intros _. split; [done|]. split; [|split].
    + intros t tm. split; [intros; split; [done|]|tauto]. intros id e. by rewrite lookup_empty.
    + intros id e. by rewrite lookup_empty.
    + done.
  - intros i x m r Hi IH Hsub.
    assert (Hm : m ⊆ pendingRequests (this w)).
    { etrans; [|exact Hsub]. by apply insert_subseteq. }
    assert (Hx : pendingRequests (this w) !! i = Some x).
    { eapply lookup_weaken; [|exact Hsub]. apply lookup_insert_eq. }
    destruct (IH Hm) as (Hr & Htim & Hrej & Hoth).
    destruct (Htab _ _ Hx) as (Hrr & tm & Htm & Hid & Hp).
    assert (Hfresh : ∀ id e, m !! id = Some e → pr_timeout e ≠ pr_timeout x).
    { intros id e He E. pose proof (lookup_weaken _ _ _ _ He Hm) as He'.
      destruct (Htab _ _ He') as (_ & tm' & Htm' & Hid' & _).
      rewrite E, Htm in Htm'. injection Htm' as <-. congruence. }
    assert (Hlive : timers r !! pr_timeout x = Some tm) by (apply Htim; eauto).
    unfold shutdownOne. rewrite Hrr, <- Hp.
    destruct (inv_timer _ Hr _ _ Hlive) as (_ & Hpend & _).
    split; [by apply retire_inv|]. split; [|split].
    + intros t tm'. simpl. rewrite lookup_delete_Some, Htim. split.
      * intros (Hne & H & Hall). split; [done|].
        intros id e [[<- <-]|[_ He]]%lookup_insert_Some; eauto.
      * intros (H & Hall). split; [|split; [done|]].
        -- eapply Hall. apply lookup_insert_eq.
        -- intros id e He. eapply Hall. rewrite lookup_insert_ne; [done|]. congruence.
    + intros id e [[<- <-]|[_ He]]%lookup_insert_Some.
      * rewrite Hrr, <- Hp.
        change (promises r) with (promises (clearTimeout (pr_timeout x) r)) in Hpend.
        rewrite (settle_pending_lookup _ _ _ _ _ Hpend). by rewrite decide_True.
      * eapply settle_stable; [by eapply Hrej|done].
    + intros p Hall.
      assert (t_reject tm ≠ p).
      { rewrite Hp, <- Hrr. eapply Hall. apply lookup_insert_eq. }
      rewrite settle_other, calls_settle, calls_clearTimeout, decide_False by done.
      simpl. rewrite Nat.add_0_r. apply Hoth.
      intros id e He. eapply Hall. rewrite lookup_insert_ne; [done|]. congruence.
Qed.

Lemma stop_inv err w : Inv w → Inv (stop err w).2.
Proof.
  intros Hw. destruct (shutdownAll_spec w Hw _ (reflexivity _)) as (Hr & _).
  rewrite stop_eq. destruct (server (this w)); split; simpl; try done.
  all: intros id e; simpl; by rewrite lookup_empty.
Qed.

Lemma start_inv p err w : Inv w → Inv (start p err w).2.
Proof. intros [Hr Ht]. by destruct err. Qed.

Lemma step_inv w e : Inv w → Inv (step w e).
Proof.
  intros Hw. destruct e as [p err|id|r id q|dt|err]; simpl.
  - by apply start_inv.
  - by apply registerRequest_inv.
  - destruct (server (this w)); try done. by apply handle_inv.
  - by apply advance_inv.
  - by apply stop_inv.
Qed.

Lemma run_inv evs w : Inv w → Inv (run evs w).
Proof.
  revert w. induction evs as [|e evs IH]; intros w Hw; [done|].
  apply IH. by apply step_inv.
Qed.

Create HintDb inv.
#[local] Hint Resolve initWorld_inv registerRequest_inv handle_inv fire_inv advance_inv
  stop_inv start_inv step_inv run_inv : inv.

(** ** Callbacks after settlement *)

Lemma handle_status r id q w : (handle r id q w).1 = OK.
Proof. rewrite handle_eq. by destruct (pendingRequests (this w) !! id). Qed.

Lemma handle_absent r id q w :
  pendingRequests (this w) !! id = None → handle r id q w = (OK, w).
Proof. intros H. by rewrite handle_eq, H. Qed.

Lemma handle_table r id q w id' :
  pendingRequests (this w) !! id' = None →
  pendingRequests (this (handle r id q w).2) !! id' = None.
Proof.
  intros H. rewrite handle_eq. destruct (pendingRequests (this w) !! id); [|done].
  simpl. apply lookup_delete_None. auto.
Qed.

Lemma fire_table t w id :
  pendingRequests (this w) !! id = None → pendingRequests (this (fire t w)) !! id = None.
Proof.
  intros H. unfold fire. destruct (timers (rt w) !! t); [|done].
  simpl. apply lookup_delete_None. auto.
Qed.

Lemma fires_table l w id :
  pendingRequests (this w) !! id = None → pendingRequests (this (fires l w)) !! id = None.
Proof.
  revert w. induction l as [|x l IH]; intros w H; [done|]. apply IH. by apply fire_table.
Qed.

(** Only [registerRequest] adds an entry to the table. *)
Lemma step_absent w e id :
  pendingRequests (this w) !! id = None → e ≠ Register id →
  pendingRequests (this (step w e)) !! id = None.
Proof.
  intros H Hne. destruct e as [p err|id'|r id' q|dt|err]; simpl.
  - by destruct err.
  - rewrite lookup_insert_ne; [done|]. congruence.
  - destruct (server (this w)); try done. by apply handle_table.
  - by apply fires_table.
  - rewrite stop_eq. destruct (server (this w)); simpl; apply lookup_empty.
Qed.

Lemma run_absent evs w id :
  pendingRequests (this w) !! id = None → Forall (λ e, e ≠ Register id) evs →
  pendingRequests (this (run evs w)) !! id = None.
Proof.
  revert w. induction evs as [|e evs IH]; intros w H Hall; [done|].
  apply Forall_cons in Hall as [He Hall]. apply IH; [|done]. by apply step_absent.
Qed.

(** No call was made: the log is unchanged. *)
Ltac nothing_settled :=
  exists []; split; [by rewrite app_nil_r|]; by intros ? ?%elem_of_nil.

Lemma fire_settles t w : Settles w (fire t w).
Proof.
  unfold fire. destruct (timers (rt w) !! t) as [tm|].
  - eexists. split; [reflexivity|]. intros x ->%list_elem_of_singleton. simpl.
    apply lookup_delete_eq.
  - nothing_settled.
Qed.

Lemma fires_settles l w : Settles w (fires l w).
Proof.
  revert w. induction l as [|x l IH]; intros w.
  - nothing_settled.
  - destruct (fire_settles x.1 w) as (l1 & E1 & H1).
    destruct (IH (fire x.1 w)) as (l2 & E2 & H2).
    exists (l1 ++ l2). split.
    + change (fires (x :: l) w) with (fires l (fire x.1 w)). by rewrite E2, E1, app_assoc.
    + intros y [Hy|Hy]%elem_of_app; [|by apply H2].
      change (fires (x :: l) w) with (fires l (fire x.1 w)). apply fires_table. by apply H1.
Qed.

Lemma shutdownAll_log m r : ∃ l, settleLog (shutdownAll m r) = settleLog r ++ l.
Proof.
  unfold shutdownAll.
  apply (map_fold_weak_ind (λ r' _, ∃ l, settleLog r' = settleLog r ++ l)).
  - exists []. by rewrite app_nil_r.
  - intros i x m' r' _ [l E]. eexists. simpl. rewrite E, <- app_assoc. reflexivity.
Qed.

Lemma step_settles w e : Settles w (step w e).
Proof.
  destruct e as [p err|id|r id q|dt|err]; simpl.
  - destruct err; nothing_settled.
  - nothing_settled.
  - assert (Settles w (handle r id q w).2) as Hh.
    { rewrite handle_eq. destruct (pendingRequests (this w) !! id).
      - eexists. split; [reflexivity|]. intros x ->%list_elem_of_singleton. simpl.
        apply lookup_delete_eq.
      - nothing_settled. }
    destruct (server (this w)); try done.
    all: nothing_settled.
  - destruct (fires_settles (due (now (rt w) + Z.max 0 dt) (rt w)) w) as (l & E & H).
    exists l. split; [exact E|exact H].
  - destruct (shutdownAll_log (pendingRequests (this w)) (rt w)) as [l E].
    exists l. rewrite stop_eq. destruct (server (this w)); simpl; (split; [done|]).
    all: intros; apply lookup_empty.
Qed.

Lemma settlements_spec w w' l :
  settleLog (rt w') = settleLog (rt w) ++ l → settlements w w' = l.
Proof. intros E. unfold settlements. by rewrite E, drop_app_length. Qed.

(** ** Settled promises stay settled; the clock *)

Lemma fire_stable t w p s :
  promises (rt w) !! p = Some s → s ≠ Pending → promises (rt (fire t w)) !! p = Some s.
Proof.
  intros H Hs. unfold fire. destruct (timers (rt w) !! t); [|done].
  simpl rt. by apply settle_stable.
Qed.

Lemma fires_stable l w p s :
  promises (rt w) !! p = Some s → s ≠ Pending → promises (rt (fires l w)) !! p = Some s.
Proof.
  revert w. induction l as [|x l IH]; intros w H Hs; [done|].
  apply IH; [|done]. by apply fire_stable.
Qed.

Lemma shutdownAll_stable m r p s :
  promises r !! p = Some s → s ≠ Pending → promises (shutdownAll m r) !! p = Some s.
Proof.
  intros H Hs. unfold shutdownAll.
  apply (map_fold_weak_ind (λ r' _, promises r' !! p = Some s)); [done|].
  intros i x m' r' _ IH. by apply settle_stable.
Qed.

Lemma shutdownAll_now m r : now (shutdownAll m r) = now r.
Proof.
  unfold shutdownAll. by apply (map_fold_weak_ind (λ r' _, now r' = now r)).
Qed.

Lemma step_stable w e p s :
  promises (rt w) !! p = Some s → s ≠ Pending → promises (rt (step w e)) !! p = Some s.
Proof.
  intros H Hs. destruct e as [pt err|id|r id q|dt|err]; simpl.
  - by destruct err.
  - by apply lookup_app_l_Some.
  - destruct (server (this w)); try done. rewrite handle_eq.
    destruct (pendingRequests (this w) !! id); [|done]. simpl rt. by apply settle_stable.
  - by apply fires_stable.
  - rewrite stop_eq. destruct (server (this w)); simpl; by apply shutdownAll_stable.
Qed.

Lemma step_now w e :
  now (rt (step w e)) = (now (rt w) + elapsed [e])%Z.
Proof.
  destruct e as [pt err|id|r id q|dt|err]; simpl; rewrite ?Z.add_0_r.
  - by destruct err.
  - done.
  - destruct (server (this w)); try done. rewrite handle_eq.
    by destruct (pendingRequests (this w) !! id).
  - done.
  - rewrite stop_eq. destruct (server (this w)); simpl; by rewrite shutdownAll_now.
Qed.

Lemma run_now evs w : now (rt (run evs w)) = (now (rt w) + elapsed evs)%Z.
Proof.
  revert w. induction evs as [|e evs IH]; intros w; simpl; [lia|].
  rewrite IH, step_now. destruct e; simpl; lia.
Qed.

Lemma elapsed_nonneg evs : (0 ≤ elapsed evs)%Z.
Proof. induction evs as [|[] evs IH]; simpl; lia. Qed.

(** ** Timeout *)

(** A due timer that is among those fired rejects its promise. *)
Lemma fires_rejects l w t tm :
  Inv w → timers (rt w) !! t = Some tm → t ∈ l.*1 →
  promises (rt (fires l w)) !! t_reject tm
  = Some (Rejected (mkError (timeoutMessage (t_requestId tm)))).
Proof.
  revert w. induction l as [|x l IH]; intros w Hw Htm Hin; [by apply elem_of_nil in Hin|].
  change (fires (x :: l) w) with (fires l (fire x.1 w)).
  destruct (decide (x.1 = t)) as [->|Hne].
  - apply fires_stable; [|done]. unfold fire. rewrite Htm. simpl rt.
    destruct Hw as [Hr _]. destruct (inv_timer _ Hr _ _ Htm) as (_ & Hp & _).
    change (promises (rt w)) with (promises (clearTimeout t (rt w))) in Hp.
    rewrite (settle_pending_lookup _ _ _ _ _ Hp). by rewrite decide_True.
  - apply IH.
    + by apply fire_inv.
    + rewrite fire_timers, lookup_delete_ne; done.
    + rewrite fmap_cons in Hin. apply elem_of_cons in Hin as [?|?]; [congruence|done].
Qed.

Lemma undisturbed_step id w e t tm :
  Inv w → undisturbed id e = true →
  timers (rt w) !! t = Some tm → t_requestId tm = id →
  timers (rt (step w e)) !! t = Some tm
  ∨ promises (rt (step w e)) !! t_reject tm = Some (Rejected (mkError (timeoutMessage id))).
Proof.
  intros Hw He Htm Hid. destruct e as [pt err|id'|r id' q|dt|err]; simpl in *.
  - left. by destruct err.
  - left. rewrite lookup_insert_ne; [done|].
    destruct Hw as [Hr _]. destruct (inv_timer _ Hr _ _ Htm) as (? & _). lia.
  - left. destruct (server (this w)); try done. rewrite handle_eq.
    destruct (pendingRequests (this w) !! id') as [e|] eqn:E; [|done]. simpl.
    destruct Hw as [_ Htab]. destruct (Htab _ _ E) as (_ & tm' & Htm' & Hid' & _).
    rewrite lookup_delete_ne; [done|]. intros Heq. rewrite Heq, Htm in Htm'.
    injection Htm' as <-. apply negb_true_iff, String.eqb_neq in He. congruence.
  - destruct (decide (now (rt w) + Z.max 0 dt < t_deadline tm)%Z) as [Hd|Hd].
    + left. apply (advance_timers dt w). done.
    + right. subst id.
      apply (fires_rejects (due (now (rt w) + Z.max 0 dt) (rt w)) w t tm); [done..|].
      apply list_elem_of_fmap. exists (t, tm). split; [done|]. apply due_elem. split; [done|lia].
  - done.
Qed.

Lemma undisturbed_run id evs w t tm :
  Inv w → forallb (undisturbed id) evs = true →
  timers (rt w) !! t = Some tm → t_requestId tm = id →
  timers (rt (run evs w)) !! t = Some tm
  ∨ promises (rt (run evs w)) !! t_reject tm = Some (Rejected (mkError (timeoutMessage id))).
Proof.
  revert w. induction evs as [|e evs IH]; intros w Hw Hall Htm Hid; [by left|].
  simpl in Hall. apply andb_true_iff in Hall as [He Hall]. simpl.
  destruct (undisturbed_step id w e t tm Hw He Htm Hid) as [H|H].
  - apply IH; auto. by apply step_inv.
  - right. clear -H. revert H. generalize (step w e). induction evs as [|e' evs IH']; [done|].
    intros w' H. simpl. apply IH'. by apply step_stable.
Qed.

(** Without a new registration the table's entry for [id] can only go. *)
Lemma step_entry w e id x :
  e ≠ Register id → pendingRequests (this (step w e)) !! id = Some x →
  pendingRequests (this w) !! id = Some x.
Proof.
  intros Hne. destruct e as [pt err|id'|r id' q|dt|err]; simpl.
  - by destruct err.
  - rewrite lookup_insert_ne; [done|congruence].
  - destruct (server (this w)); try done. rewrite handle_eq.
    destruct (pendingRequests (this w) !! id'); [|done]. simpl.
    by intros [_ ?]%lookup_delete_Some.
  - generalize (due (now (rt w) + Z.max 0 dt) (rt w)). intros l. revert w.
    induction l as [|y l IH]; intros w; [done|].
    change (fires (y :: l) w) with (fires l (fire y.1 w)). intros H%IH. revert H.
    unfold fire. destruct (timers (rt w) !! y.1); [|done]. simpl.
    by intros [_ ?]%lookup_delete_Some.
  - rewrite stop_eq. destruct (server (this w)); simpl; by rewrite lookup_empty.
Qed.

Lemma run_entry evs w id x :
  Forall (λ e, e ≠ Register id) evs → pendingRequests (this (run evs w)) !! id = Some x →
  pendingRequests (this w) !! id = Some x.
Proof.
  revert w. induction evs as [|e evs IH]; intros w Hall; [done|].
  apply Forall_cons in Hall as [He Hall]. simpl. intros H%IH; [|done]. by eapply step_entry.
Qed.

(** * The specified behaviour of the callback server *)

(** C1.  In every world the server can reach, no promise returned by
    [registerRequest] has had [resolve] or [reject] called on it more than
    once, whoever the callers were (success, error or cancel callback,
    timeout, shutdown), and a settled promise has had exactly one call.
    Every call made by an event leaves the table without an entry for the
    identifier it was made for, so that, until that identifier is
    registered again, each later callback for it changes nothing; and a
    callback is always answered with status 200 and body OK. *)
Theorem settlement_exactly_once (evs : list Event) (e : Event) :
  let w := run evs initWorld in
  let w' := step w e in
  (∀ p, calls p (rt w') ≤ 1)
  ∧ (∀ p s, promises (rt w') !! p = Some s → s ≠ Pending → calls p (rt w') = 1)
  ∧ (∀ x, x ∈ settlements w w' →
       ∀ evs', Forall (λ e', e' ≠ Register x.2.2) evs' →
       ∀ r q, handle r x.2.2 q (run evs' w') = (mkHttp 200 "OK", run evs' w'))
  ∧ (∀ r id q, (handle r id q w').1 = mkHttp 200 "OK").
Proof.
  intros w w'.
  assert (Hw' : Inv w') by (unfold w', w; auto with inv).
  destruct Hw' as [Hr _]. repeat split.
  - apply (inv_once _ Hr).
  - apply (inv_settled _ Hr).
  - intros x Hx evs' Hall r q.
    destruct (step_settles w e) as (l & E & Hl). fold w' in E, Hl.
    rewrite (settlements_spec _ _ _ E) in Hx.
    apply handle_absent, run_absent; auto.
  - intros. apply handle_status.
Qed.

(** A success callback for a registered identifier, seen as the last
    event of a run. *)
Lemma settlement_exactly_once_witness :
  let w := run [Start 49152 None; Register "req-A"] initWorld in
  let w' := step w (Http XSuccess "req-A" (query [("text", "hello")])) in
  (∀ p, calls p (rt w') ≤ 1)
  ∧ (∀ p s, promises (rt w') !! p = Some s → s ≠ Pending → calls p (rt w') = 1)
  ∧ (∀ x, x ∈ settlements w w' →
       ∀ evs', Forall (λ e', e' ≠ Register x.2.2) evs' →
       ∀ r q, handle r x.2.2 q (run evs' w') = (mkHttp 200 "OK", run evs' w'))
  ∧ (∀ r id q, (handle r id q w').1 = mkHttp 200 "OK").
Proof.
  exact (settlement_exactly_once [Start 49152 None; Register "req-A"]
           (Http XSuccess "req-A" (query [("text", "hello")]))).
Defined.

(** C7.  A request is registered under [id] at some reachable point; then
    at least 30000 ms pass during which neither a callback for [id] nor a
    shutdown occurs (anything else may: other registrations, other
    callbacks).  Then the promise that was returned is rejected with the
    error "Request <id> timed out after 30000ms", no entry of the table
    holds that promise any more, and, if [id] was not registered again
    meanwhile, the table has no entry for [id]. *)
Theorem request_times_out (evs0 evs : list Event) (id : string) :
  forallb (undisturbed id) evs = true →
  (REQUEST_TIMEOUT ≤ elapsed evs)%Z →
  let '(p, w1) := registerRequest id (run evs0 initWorld) in
  let w2 := run evs w1 in
  promises (rt w2) !! p
    = Some (Rejected (mkError ("Request " +:+ id +:+ " timed out after 30000ms")))
  ∧ (∀ k e, pendingRequests (this w2) !! k = Some e → pr_resolve e ≠ p ∧ pr_reject e ≠ p)
  ∧ (Forall (λ e, e ≠ Register id) evs → pendingRequests (this w2) !! id = None).
Proof.
  intros Hall Hel.
  pose proof (run_inv evs0 _ initWorld_inv) as Hw0. set (w0 := run evs0 initWorld) in *.
  pose proof (registerRequest_inv id w0 Hw0) as Hw1.
  rewrite registerRequest_eq in *. simpl in Hw1. set (w1 := mkWorld _ _) in *.
  set (p := length (promises (rt w0))).
  set (tm := mkTimer (now (rt w0) + REQUEST_TIMEOUT) id p).
  assert (Htm : timers (rt w1) !! nextTimer (rt w0) = Some tm) by apply lookup_insert_eq.
  pose proof (run_inv evs w1 Hw1) as Hw2.
  assert (Hrej : promises (rt (run evs w1)) !! p
                 = Some (Rejected (mkError (timeoutMessage id)))).
  { destruct (undisturbed_run id evs w1 _ tm Hw1 Hall Htm eq_refl) as [Hlive|H]; [|done].
    destruct Hw2 as [Hr _]. destruct (inv_timer _ Hr _ _ Hlive) as (_ & _ & _ & Hd).
    rewrite run_now in Hd. simpl in Hd. lia. }
  assert (Hnone : ∀ k e, pendingRequests (this (run evs w1)) !! k = Some e → pr_resolve e ≠ p).
  { intros k e He Heq. destruct Hw2 as [Hr Htab].
    destruct (Htab _ _ He) as (_ & tm' & Htm' & _ & Hp).
    destruct (inv_timer _ Hr _ _ Htm') as (_ & Hpend & _). congruence. }
  split; [exact Hrej|]. split.
  - intros k e He. split; [by eapply Hnone|].
    destruct Hw2 as [_ Htab]. destruct (Htab _ _ He) as (-> & _). by eapply Hnone.
  - intros Hreg. destruct (pendingRequests (this (run evs w1)) !! id) as [e|] eqn:He; [|done].
    exfalso. apply (Hnone _ _ He).
    apply run_entry in He; [|done]. simpl in He. rewrite lookup_insert_eq in He.
    by injection He as <-.
Qed.

(** A request registered right after [start] that hears nothing for
    exactly 30000 ms. *)
Lemma request_times_out_witness :
  let '(p, w1) := registerRequest "req-D" (run [Start 49152 None] initWorld) in
  let w2 := run [Advance 12000; Register "other"; Advance 18000] w1 in
  promises (rt w2) !! p
    = Some (Rejected (mkError ("Request " +:+ "req-D" +:+ " timed out after 30000ms")))
  ∧ (∀ k e, pendingRequests (this w2) !! k = Some e → pr_resolve e ≠ p ∧ pr_reject e ≠ p)
  ∧ (Forall (λ e, e ≠ Register "req-D") [Advance 12000; Register "other"; Advance 18000] →
     pendingRequests (this w2) !! "req-D" = None).
Proof.
  apply (request_times_out [Start 49152 None]
           [Advance 12000; Register "other"; Advance 18000] "req-D").
  - reflexivity.
  - vm_compute. discriminate.
Defined.

(** ** Shutdown and the timers it leaves *)

Lemma fire_owned t w : Owned w → Owned (fire t w).
Proof.
  intros Ho. unfold fire. destruct (timers (rt w) !! t) as [tm|] eqn:Htm; [|done].
  intros t' tm'. simpl. intros [Hne H]%lookup_delete_Some.
  destruct (Ho _ _ H) as (e & He & Ht). exists e. split; [|done].
  rewrite lookup_delete_ne; [done|]. intros Heq.
  destruct (Ho _ _ Htm) as (e0 & He0 & Ht0). rewrite Heq in He0. congruence.
Qed.

Lemma fires_owned l w : Owned w → Owned (fires l w).
Proof.
  revert w. induction l as [|x l IH]; intros w Ho; [done|]. by apply IH, fire_owned.
Qed.

Lemma step_owned w e :
  Inv w → Owned w → freshRegistrations [e] w = true → Owned (step w e).
Proof.
  intros Hw Ho Hf. destruct e as [pt err|id|r id q|dt|err]; simpl in *.
  - by destruct err.
  - rewrite andb_true_r in Hf. apply bool_decide_eq_true in Hf.
    intros t tm. simpl. intros [[<- <-]|[Hne H]]%lookup_insert_Some; simpl.
    + eexists. by rewrite lookup_insert_eq.
    + destruct (Ho _ _ H) as (e & He & Ht). exists e. split; [|done].
      rewrite lookup_insert_ne; [done|]. congruence.
  - destruct (server (this w)); try done. rewrite handle_eq.
    destruct (pendingRequests (this w) !! id) as [e0|] eqn:E; [|done].
    intros t tm. simpl. intros [Hne H]%lookup_delete_Some.
    destruct (Ho _ _ H) as (e & He & Ht). exists e. split; [|done].
    rewrite lookup_delete_ne; [done|]. congruence.
  - intros t tm H. by apply (fires_owned _ w Ho).
  - intros t tm H. exfalso. rewrite stop_eq in H.
    destruct (shutdownAll_spec w Hw _ (reflexivity _)) as (_ & Htim & _).
    assert (H' : timers (shutdownAll (pendingRequests (this w)) (rt w)) !! t = Some tm)
      by (by destruct (server (this w))).
    apply Htim in H' as [H' Hall]. destruct (Ho _ _ H') as (e & He & Ht). by eapply Hall.
Qed.

Lemma run_owned evs w :
  Inv w → Owned w → freshRegistrations evs w = true → Owned (run evs w).
Proof.
  revert w. induction evs as [|e evs IH]; intros w Hw Ho Hf; [done|].
  simpl in Hf. apply andb_true_iff in Hf as [He Hf]. simpl.
  apply IH; [by apply step_inv| |done]. apply step_owned; [done..|].
  simpl. by rewrite He.
Qed.

(** C8 fails after a second registration under an outstanding identifier:
    the first registration's timer survives [stop()], and its promise is
    still pending. *)
Lemma stop_leaves_timer_of_overwritten :
  ¬ stop_leaves_no_timer [Start 49152 None; Register "req-E"; Register "req-E"] None
  ∧ let w' := (stop None (run [Start 49152 None; Register "req-E"; Register "req-E"]
                            initWorld)).2 in
    timers (rt w') !! 0 = Some (mkTimer 30000 "req-E" 0)
    ∧ promises (rt w') !! 0 = Some Pending.
Proof.
  split; [|by vm_compute].
  intros (_ & _ & H). apply (f_equal (λ m, m !! 0)) in H. vm_compute in H. discriminate.
Qed.

(** C8, amended.  [stop()] rejects the promise of every entry of the table
    with "Server shutting down", cancels the timer of every entry and
    empties the table; the timers it leaves are exactly those that belonged
    to no entry, and there are none when no identifier was registered while
    it still had an entry.  With an empty table it changes nothing in the
    runtime and reports only what closing the listener reports. *)
Theorem stop_rejects_all (evs : list Event) (err : option Error) :
  let w := run evs initWorld in
  let w' := (stop err w).2 in
  (∀ id e, pendingRequests (this w) !! id = Some e →
     promises (rt w') !! pr_reject e = Some (Rejected (mkError "Server shutting down"))
     ∧ timers (rt w') !! pr_timeout e = None)
  ∧ pendingRequests (this w') = ∅
  ∧ (∀ t tm, timers (rt w') !! t = Some tm ↔
       timers (rt w) !! t = Some tm
       ∧ ∀ id e, pendingRequests (this w) !! id = Some e → pr_timeout e ≠ t)
  ∧ (freshRegistrations evs initWorld = true → timers (rt w') = ∅)
  ∧ (pendingRequests (this w) = ∅ →
       rt w' = rt w
       ∧ (stop err w).1 = match server (this w) with NoServer => None | _ => err end).
Proof.
  intros w w'.
  assert (Hw : Inv w) by (unfold w; auto with inv).
  destruct (shutdownAll_spec w Hw _ (reflexivity _)) as (_ & Htim & Hrej & _).
  assert (Hrt : rt w' = shutdownAll (pendingRequests (this w)) (rt w)).
  { unfold w'. rewrite stop_eq. by destruct (server (this w)). }
  rewrite Hrt. split; [|split; [|split; [|split]]].
  - intros id e He. split; [by eapply Hrej|].
    destruct (timers _ !! pr_timeout e) as [tm|] eqn:E; [|done].
    apply Htim in E as [_ Hall]. exfalso. by eapply Hall.
  - unfold w'. rewrite stop_eq. by destruct (server (this w)).
  - exact Htim.
  - intros Hf. apply map_empty. intros t.
    destruct (timers _ !! t) as [tm|] eqn:E; [|done].
    apply Htim in E as [E Hall]. exfalso.
    assert (Ho : Owned w).
    { apply run_owned; [apply initWorld_inv| |done]. intros ? ?. simpl. by rewrite lookup_empty. }
    destruct (Ho _ _ E) as (e & He & Ht). by eapply Hall.
  - intros He. split.
    + unfold shutdownAll. rewrite He. apply map_fold_empty.
    + rewrite stop_eq. by destruct (server (this w)).
Qed.

(** [stop()] with one request outstanding. *)
Lemma stop_rejects_all_witness :
  let w := run [Start 49152 None; Register "req-E"] initWorld in
  let w' := (stop None w).2 in
  (∀ id e, pendingRequests (this w) !! id = Some e →
     promises (rt w') !! pr_reject e = Some (Rejected (mkError "Server shutting down"))
     ∧ timers (rt w') !! pr_timeout e = None)
  ∧ pendingRequests (this w') = ∅
  ∧ (∀ t tm, timers (rt w') !! t = Some tm ↔
       timers (rt w) !! t = Some tm
       ∧ ∀ id e, pendingRequests (this w) !! id = Some e → pr_timeout e ≠ t)
  ∧ (freshRegistrations [Start 49152 None; Register "req-E"] initWorld = true →
     timers (rt w') = ∅)
  ∧ (pendingRequests (this w) = ∅ →
       rt w' = rt w
       ∧ (stop None w).1 = match server (this w) with NoServer => None | _ => None end).
Proof.
  exact (stop_rejects_all [Start 49152 None; Register "req-E"] None).
Defined.

(** ** Registration under an outstanding identifier *)

(** C2 fails: the second registration silently takes the entry over and
    returns a promise that is pending like any other. *)
Lemma reRegistration_overwrites :
  ¬ reRegistration_is_error (run [Start 49152 None; Register "req-A"] initWorld) "req-A".
Proof.
  intros H. specialize (H (mkPending 0 0 0) eq_refl).
  destruct H as [H _]. vm_compute in H. discriminate.
Qed.

(** C2, amended.  [registerRequest] never fails.  Called for an identifier
    that still has an entry, it returns a fresh pending promise and
    replaces the entry by one for that promise (the last registration
    wins); the earlier promise stays pending with its timer running, but
    no entry of the table leads to it any more. *)
Theorem reRegistration_last_wins (evs : list Event) (id : string) (e : PendingRequest) :
  let w := run evs initWorld in
  pendingRequests (this w) !! id = Some e →
  let '(p, w') := registerRequest id w in
  p ≠ pr_resolve e
  ∧ promises (rt w') !! p = Some Pending
  ∧ pendingRequests (this w') !! id = Some (mkPending p p (nextTimer (rt w)))
  ∧ promises (rt w') !! pr_resolve e = Some Pending
  ∧ (∃ tm, timers (rt w') !! pr_timeout e = Some tm ∧ t_reject tm = pr_resolve e)
  ∧ (∀ k e', pendingRequests (this w') !! k = Some e' → pr_resolve e' ≠ pr_resolve e).
Proof.
  intros w He.
  assert (Hw : Inv w) by (unfold w; auto with inv).
  pose proof (registerRequest_inv id w Hw) as Hw'.
  rewrite registerRequest_eq in *. simpl in Hw'.
  destruct Hw as [Hr Htab]. destruct (Htab _ _ He) as (_ & tm & Htm & Hid & Hp).
  destruct (inv_timer _ Hr _ _ Htm) as (Hlt & Hpend & _).
  pose proof (lookup_lt_Some _ _ _ Hpend) as Hlen. rewrite Hp in Hlen, Hpend.
  split; [lia|]. simpl. split; [|split; [|split; [|split]]].
  - by rewrite lookup_app_r, Nat.sub_diag by lia.
  - apply lookup_insert_eq.
  - by apply lookup_app_l_Some.
  - exists tm. split; [|done]. rewrite lookup_insert_ne; [done|lia].
  - intros k e' [[<- <-]|[Hne He']]%lookup_insert_Some; simpl; [lia|].
    intros Heq. destruct (Htab _ _ He') as (_ & tm' & Htm' & Hid' & Hp').
    assert (pr_timeout e' = pr_timeout e).
    { eapply (inv_inj _ Hr); eauto. congruence. }
    congruence.
Qed.

Lemma reRegistration_last_wins_witness :
  let '(p, w') := registerRequest "req-A" (run [Start 49152 None; Register "req-A"] initWorld) in
  p ≠ 0
  ∧ promises (rt w') !! p = Some Pending
  ∧ pendingRequests (this w') !! "req-A" = Some (mkPending p p 1)
  ∧ promises (rt w') !! 0 = Some Pending
  ∧ (∃ tm, timers (rt w') !! 0 = Some tm ∧ t_reject tm = 0)
  ∧ (∀ k e', pendingRequests (this w') !! k = Some e' → pr_resolve e' ≠ 0).
Proof.
  apply (reRegistration_last_wins [Start 49152 None; Register "req-A"] "req-A"
           (mkPending 0 0 0)).
  reflexivity.
Defined.

(** ** What the callbacks resolve with *)

Lemma collectData_lookup (q : gmap string QueryValue) (k : string) :
  collectData q !! k
  = if bool_decide (k = "__proto__") then None else q !! k ≫= isString.
Proof.
  unfold collectData.
  apply (map_fold_weak_ind
           (λ d m, d !! k = if bool_decide (k = "__proto__") then None
                            else m !! k ≫= isString)).
  { rewrite !lookup_empty. by case_bool_decide. }
  intros i x m d Hi IH. destruct (decide (i = k)) as [->|Hne].
  - rewrite lookup_insert_eq. rewrite Hi in IH. simpl in *.
    destruct (isString x) as [s|]; unfold assign; case_bool_decide; try done.
    by rewrite lookup_insert_eq.
  - rewrite lookup_insert_ne by done.
    destruct (isString x) as [s|]; [|done]. unfold assign.
    destruct (bool_decide (i = "__proto__")); [done|]. by rewrite lookup_insert_ne.
Qed.

Lemma collectData_spec (q : gmap string QueryValue) (k s : string) :
  collectData q !! k = Some s ↔ k ≠ "__proto__" ∧ q !! k = Some (QString s).
Proof.
  rewrite collectData_lookup. destruct (bool_decide_reflect (k = "__proto__")).
  - split; [done|]. by intros [? _].
  - destruct (q !! k) as [[t|vs|fs]|]; simpl; (split; [|by intros [_ [= <-]]]);
      by intros [= <-].
Qed.

(** C6 fails in three ways.  For [/x-error/req-B?error=] the parameter is
    there, with the empty string as its value, and the failure carries
    "Unknown error".  For [/x-success/req-B?tag=a&tag=b] Express gives the
    array [["a", "b"]] as the value of [tag], and the mapping has no [tag].
    For a query with the parameters [__proto__ = "x"] and [text = "hello"]
    the mapping has [text] only. *)
Lemma callback_outcomes_differ :
  let w := run [Start 49152 None; Register "req-B"] initWorld in
  (¬ error_carries_parameter w "req-B" (query [("error", "")])
   ∧ promises (rt (xError "req-B" (query [("error", "")]) w).2) !! 0
     = Some (Fulfilled (mkResponse false None (Some (QString "Unknown error")))))
  ∧ (¬ success_carries_query w "req-B" {[ "tag" := QArray [QString "a"; QString "b"] ]}
     ∧ promises (rt (xSuccess "req-B" {[ "tag" := QArray [QString "a"; QString "b"] ]} w).2) !! 0
       = Some (Fulfilled (mkResponse true (Some ∅) None)))
  ∧ (¬ success_carries_query w "req-B" (query [("__proto__", "x"); ("text", "hello")])
     ∧ promises (rt (xSuccess "req-B" (query [("__proto__", "x"); ("text", "hello")]) w).2) !! 0
       = Some (Fulfilled (mkResponse true (Some {[ "text" := "hello" ]}) None))).
Proof.
  intros w. split; [|split]; (split; [|by vm_compute]).
  - intros H. specialize (H (mkPending 0 0 0) eq_refl). vm_compute in H. discriminate.
  - intros H. destruct (H (mkPending 0 0 0) eq_refl) as (data & Hd & Hk).
    vm_compute in Hd. injection Hd as <-.
    destruct (Hk "tag") as [x Hx]; [by eexists|]. vm_compute in Hx. discriminate.
  - intros H. destruct (H (mkPending 0 0 0) eq_refl) as (data & Hd & Hk).
    vm_compute in Hd. injection Hd as <-.
    destruct (Hk "__proto__") as [x Hx]; [by eexists|]. vm_compute in Hx. discriminate.
Qed.

(** C6, amended.  With an entry for [id] in the table, each callback
    fulfils (never rejects) that entry's promise: the success callback with
    [success: true] and, as [data], the query parameters whose value is a
    string and whose name is not [__proto__]; the error callback with
    [success: false] and the [error] parameter, or "Unknown error" when
    that parameter is absent or is the empty string; the cancel callback
    with [success: false] and "User cancelled". *)
Theorem callbacks_resolve (evs : list Event) (id : string) (e : PendingRequest)
    (q : gmap string QueryValue) :
  let w := run evs initWorld in
  pendingRequests (this w) !! id = Some e →
  (∃ data, promises (rt (xSuccess id q w).2) !! pr_resolve e
           = Some (Fulfilled (mkResponse true (Some data) None))
           ∧ ∀ k s, data !! k = Some s ↔ k ≠ "__proto__" ∧ q !! k = Some (QString s))
  ∧ promises (rt (xError id q w).2) !! pr_resolve e
    = Some (Fulfilled (mkResponse false None
              (Some match q !! "error" with
                    | None | Some (QString "") => QString "Unknown error"
                    | Some v => v
                    end)))
  ∧ promises (rt (xCancel id q w).2) !! pr_resolve e
    = Some (Fulfilled (mkResponse false None (Some (QString "User cancelled")))).
Proof.
  intros w He.
  assert (Hw : Inv w) by (unfold w; auto with inv).
  destruct Hw as [Hr Htab]. destruct (Htab _ _ He) as (_ & tm & Htm & _ & Hp).
  destruct (inv_timer _ Hr _ _ Htm) as (_ & Hpend & _). rewrite Hp in Hpend.
  assert (Hres : ∀ r, promises (rt (handle r id q w).2) !! pr_resolve e
                      = Some (Fulfilled (fulfilment r q).1)).
  { intros r. rewrite handle_eq, He. simpl rt.
    change (promises (rt w)) with (promises (clearTimeout (pr_timeout e) (rt w))) in Hpend.
    rewrite (settle_pending_lookup _ _ _ _ _ Hpend). by rewrite decide_True. }
  split; [|split].
  - exists (collectData q). split; [exact (Hres XSuccess)|]. apply collectData_spec.
  - etrans; [exact (Hres XError)|]. simpl. unfold errorOf.
    destruct (q !! "error") as [[[|]| |]|]; done.
  - exact (Hres XCancel).
Qed.

Lemma callbacks_resolve_witness :
  let w := run [Start 49152 None; Register "req-A"] initWorld in
  let q := query [("text", "hello"); ("uuid", "123")] in
  (∃ data, promises (rt (xSuccess "req-A" q w).2) !! 0
           = Some (Fulfilled (mkResponse true (Some data) None))
           ∧ ∀ k s, data !! k = Some s ↔ k ≠ "__proto__" ∧ q !! k = Some (QString s))
  ∧ promises (rt (xError "req-A" q w).2) !! 0
    = Some (Fulfilled (mkResponse false None
              (Some match q !! "error" with
                    | None | Some (QString "") => QString "Unknown error"
                    | Some v => v
                    end)))
  ∧ promises (rt (xCancel "req-A" q w).2) !! 0
    = Some (Fulfilled (mkResponse false None (Some (QString "User cancelled")))).
Proof.
  apply (callbacks_resolve [Start 49152 None; Register "req-A"] "req-A" (mkPending 0 0 0)).
  reflexivity.
Defined.

(** ** Callback URLs *)

Lemma fires_this_port l w : port (this (fires l w)) = port (this w).
Proof.
  revert w. induction l as [|x l IH]; intros w; [done|].
  change (fires (x :: l) w) with (fires l (fire x.1 w)). rewrite IH.
  unfold fire. by destruct (timers (rt w) !! x.1).
Qed.

Lemma step_port w e : notStart e = true → port (this (step w e)) = port (this w).
Proof.
  intros He. destruct e as [pt err|id|r id q|dt|err]; simpl; try done.
  - destruct (server (this w)); try done. rewrite handle_eq.
    by destruct (pendingRequests (this w) !! id).
  - apply fires_this_port.
  - rewrite stop_eq. by destruct (server (this w)).
Qed.

Lemma run_port evs w : forallb notStart evs = true → port (this (run evs w)) = port (this w).
Proof.
  revert w. induction evs as [|e evs IH]; intros w Hall; [done|].
  simpl in Hall. apply andb_true_iff in Hall as [He Hall]. simpl.
  by rewrite IH, step_port.
Qed.

Lemma append_assoc (s1 s2 s3 : string) : (s1 +:+ s2) +:+ s3 = s1 +:+ (s2 +:+ s3).
Proof.
  induction s1 as [|c s1 IH]; [done|].
  change (String c ((s1 +:+ s2) +:+ s3) = String c (s1 +:+ (s2 +:+ s3))). by rewrite IH.
Qed.

(** C9.  Once [start()] has bound port [p], and whatever happens to the
    server afterwards short of another [start()], [getCallbackUrls(id)] is
    the triple http://localhost:p/x-success/id, .../x-error/id,
    .../x-cancel/id.  It reads the port and nothing else (two servers with
    the same port give the same triple, whatever their tables hold), and,
    having no access to the world, changes nothing. *)
Theorem getCallbackUrls_spec (w0 : World) (p : Z) (evs : list Event) (id : string) :
  forallb notStart evs = true →
  let w := run evs (start p None w0).2 in
  getCallbackUrls id (this w)
  = mkUrls ("http://localhost:" +:+ pretty p +:+ "/x-success/" +:+ id)
           ("http://localhost:" +:+ pretty p +:+ "/x-error/" +:+ id)
           ("http://localhost:" +:+ pretty p +:+ "/x-cancel/" +:+ id)
  ∧ ∀ s : CallbackServer, port s = p → getCallbackUrls id s = getCallbackUrls id (this w).
Proof.
  intros Hall w.
  assert (Hp : port (this w) = p) by (unfold w; by rewrite run_port).
  unfold getCallbackUrls. rewrite Hp. split; [|by intros s ->].
  by rewrite !append_assoc.
Qed.

Lemma getCallbackUrls_spec_witness :
  let w := run [Http XCancel "x" ∅; Advance 5] (start 49152 None initWorld).2 in
  getCallbackUrls "test-request-5" (this w)
  = mkUrls ("http://localhost:" +:+ pretty 49152%Z +:+ "/x-success/" +:+ "test-request-5")
           ("http://localhost:" +:+ pretty 49152%Z +:+ "/x-error/" +:+ "test-request-5")
           ("http://localhost:" +:+ pretty 49152%Z +:+ "/x-cancel/" +:+ "test-request-5")
  ∧ ∀ s : CallbackServer, port s = 49152%Z →
      getCallbackUrls "test-request-5" s = getCallbackUrls "test-request-5" (this w).
Proof.
  apply (getCallbackUrls_spec initWorld 49152 [Http XCancel "x" ∅; Advance 5] "test-request-5").
  reflexivity.
Defined.

(** * Properties of the client *)

Section retry.
Context (env : Env) (client : DraftsClient).

Lemma sleep_now m :
  (now (rt (world m)) + retryDelay client ≤ now (rt (world (sleep env client m))))%Z.
Proof. unfold sleep. simpl. lia. Qed.

Lemma executeWithRetry_eq {T} (fn : Machine → Async T) retries m :
  executeWithRetry env client fn retries m =
  match fn m with
  | Some (inl error, m1) =>
      if decide (retries > 0)%Z then executeWithRetry env client fn (retries - 1) (sleep env client m1)
      else Some (inl error, m1)
  | Some (inr v, m1) => Some (inr v, m1)
  | None => None
  end.
Proof.
  rewrite executeWithRetry_equation_1. by destruct (fn m) as [[[e|v] m1]|].
Qed.

Lemma attempts_eq {T} (fn : Machine → Async T) retries m :
  attempts env client fn retries m =
  (m, fn m) :: match fn m with
               | Some (inl _, m1) =>
                   if decide (retries > 0)%Z then attempts env client fn (retries - 1) (sleep env client m1)
                   else []
               | _ => []
               end.
Proof.
  rewrite attempts_equation_1. by destruct (fn m) as [[[e|v] m1]|].
Qed.

(** The last record holds what [executeWithRetry] returns. *)
Lemma attempts_last {T} (fn : Machine → Async T) n : ∀ retries m,
  Z.to_nat retries = n →
  ∃ ml, last (attempts env client fn retries m)
        = Some (ml, executeWithRetry env client fn retries m).
Proof.
  induction n as [|n IH]; intros retries m Hn;
    rewrite attempts_eq, executeWithRetry_eq;
    destruct (fn m) as [[[e|v] m1]|]; try (by exists m);
    destruct (decide (retries > 0)%Z); try lia; try (by exists m).
  destruct (IH (retries - 1)%Z (sleep env client m1)) as [ml Hl]; [lia|].
  exists ml. rewrite last_cons. by rewrite Hl.
Qed.

(** Each record pairs a world with what [fn] produced in it. *)
Lemma attempts_snd {T} (fn : Machine → Async T) n : ∀ retries m,
  Z.to_nat retries = n → Forall (λ a, a.2 = fn a.1) (attempts env client fn retries m).
Proof.
  induction n as [|n IH]; intros retries m Hn; rewrite attempts_eq;
    (constructor; [done|]); destruct (fn m) as [[[e|v] m1]|]; try done;
    destruct (decide _); try done; [lia|apply IH; lia].
Qed.

(** When every attempt throws and [retries] is not negative, there are
    [retries + 1] attempts, each starts in the world that [sleep] made of
    the one its predecessor ended in, and the error thrown by the last
    one is the result. *)
Lemma exhausted {T} (fn : Machine → Async T) n : ∀ retries m,
  Z.to_nat retries = n → (0 ≤ retries)%Z →
  forallb failed (attempts env client fn retries m) = true →
  ∃ e ml m',
    executeWithRetry env client fn retries m = Some (inl e, m')
    ∧ length (attempts env client fn retries m) = S n
    ∧ last (attempts env client fn retries m) = Some (ml, Some (inl e, m'))
    ∧ ∀ k a b, attempts env client fn retries m !! k = Some a →
               attempts env client fn retries m !! S k = Some b →
               ∃ ea ma, a.2 = Some (inl ea, ma) ∧ b.1 = sleep env client ma.
Proof.
  induction n as [|n IH]; intros retries m Hn Hpos Hall;
    rewrite attempts_eq in Hall |- *; rewrite executeWithRetry_eq; simpl in Hall;
    apply andb_true_iff in Hall as [Hf Hall]; unfold failed in Hf; simpl in Hf;
    destruct (fn m) as [[[e|v] m1]|] eqn:Hfn; try done;
    destruct (decide (retries > 0)%Z) as [Hgt|Hle]; try lia.
  - exists e, m, m1. repeat split; try done; intros k a b _ Hb; by destruct k.
  - destruct (IH (retries - 1)%Z (sleep env client m1))
      as (e' & ml & m' & Hex & Hlen & Hlast & Hgap); [lia|lia|done|].
    exists e', ml, m'. split; [done|]. split; [simpl; by rewrite Hlen|]. split.
    + rewrite last_cons, Hlast. done.
    + intros [|k] a b Ha Hb; simpl in *.
      * injection Ha as <-. exists e, m1. split; [done|].
        rewrite attempts_eq in Hb. simpl in Hb. by injection Hb as <-.
      * eauto.
Qed.

End retry.

(** ** Waiting for a callback always ends *)

(** In a reachable world a pending promise has its timer, so the wait ends
    at the latest when that timer fires. *)
Lemma awaitPromise_total p w :
  Inv w → p < length (promises (rt w)) → is_Some (awaitPromise p w).
Proof.
  intros Hw Hp. unfold awaitPromise.
  destruct (lookup_lt_is_Some_2 _ _ Hp) as [s Hs]. rewrite Hs.
  destruct s as [|v|e]; [|done..].
  pose proof Hw as [Hr _]. destruct (inv_pending _ Hr _ Hs) as (_ & t & tm & Htm & Hrej).
  destruct (map_to_list _) as [|[t' tm'] l] eqn:El.
  { assert (Hin : (t, tm) ∈ map_to_list (filter (λ x, t_reject x.2 = p) (timers (rt w)))).
    { apply elem_of_map_to_list, map_lookup_filter_Some. done. }
    rewrite El in Hin. by apply elem_of_nil in Hin. }
  assert (Hin : (t', tm') ∈ map_to_list (filter (λ x, t_reject x.2 = p) (timers (rt w)))).
  { rewrite El. apply elem_of_cons. by left. }
  apply elem_of_map_to_list, map_lookup_filter_Some in Hin as [Htm' Hrej']. simpl in Hrej'.
  set (dt := (t_deadline tm' - now (rt w))%Z).
  assert (Hfired : promises (rt (advance dt w)) !! p
                   = Some (Rejected (mkError (timeoutMessage (t_requestId tm'))))).
  { rewrite <- Hrej'.
    apply (fires_rejects (due (now (rt w) + Z.max 0 dt) (rt w)) w t' tm'); [done..|].
    apply list_elem_of_fmap. exists (t', tm'). split; [done|]. apply due_elem.
    split; [done|]. unfold dt. lia. }
  by rewrite Hfired.
Qed.

Lemma fire_length t w : length (promises (rt (fire t w))) = length (promises (rt w)).
Proof.
  unfold fire. destruct (timers (rt w) !! t); [|done]. simpl rt. by rewrite settle_length.
Qed.

Lemma fires_length l w : length (promises (rt (fires l w))) = length (promises (rt w)).
Proof.
  revert w. induction l as [|x l IH]; intros w; [done|].
  change (fires (x :: l) w) with (fires l (fire x.1 w)). by rewrite IH, fire_length.
Qed.

Lemma shutdownAll_length m r : length (promises (shutdownAll m r)) = length (promises r).
Proof.
  unfold shutdownAll.
  apply (map_fold_weak_ind (λ r' _, length (promises r') = length (promises r))); [done|].
  intros i x m' r' _ IH. unfold shutdownOne. by rewrite settle_length.
Qed.

Lemma advance_length dt w :
  length (promises (rt (advance dt w))) = length (promises (rt w)).
Proof. exact (fires_length (due (now (rt w) + Z.max 0 dt) (rt w)) w). Qed.

(** Promises are never removed from the heap. *)
Lemma step_heap w e : length (promises (rt w)) ≤ length (promises (rt (step w e))).
Proof.
  destruct e as [pt err|id|r id q|dt|err].
  - simpl. by destruct err.
  - simpl. rewrite length_app. lia.
  - simpl. destruct (server (this w)); try done. rewrite handle_eq.
    destruct (pendingRequests (this w) !! id); [|done]. simpl rt. by rewrite settle_length.
  - change (step w (Advance dt)) with (advance dt w). by rewrite advance_length.
  - simpl. rewrite stop_eq. destruct (server (this w)); simpl; by rewrite shutdownAll_length.
Qed.

Lemma run_heap evs w : length (promises (rt w)) ≤ length (promises (rt (run evs w))).
Proof.
  revert w. induction evs as [|e evs IH]; intros w; [done|].
  simpl. etrans; [apply step_heap|apply IH].
Qed.

(** [openUrl] returns in every world the server can be in, once the
    launch has returned. *)
Lemma openUrl_total env url requestId m :
  Inv (world m) → launch env (nOpen m) ≠ LaunchHangs →
  is_Some (openUrl env url requestId m).
Proof.
  intros Hw Hl. unfold openUrl.
  pose proof (registerRequest_inv requestId _ Hw) as Hw1.
  rewrite registerRequest_eq in *. simpl in Hw1. set (w1 := mkWorld _ _) in *.
  destruct (launch env (nOpen m)); [|done..].
  destruct (awaitPromise_total (length (promises (rt (world m))))
              (run (during env (nOpen m)) w1)) as [[[e|response] w3] Heq].
  - by apply run_inv.
  - eapply Nat.lt_le_trans; [|apply run_heap]. simpl. rewrite length_app. simpl. lia.
  - by rewrite Heq.
  - rewrite Heq. by destruct (negb (cr_success response)).
Qed.

(** ** What an attempt consumes *)

Lemma awaitPromise_now p w x w' :
  awaitPromise p w = Some (x, w') → (now (rt w) ≤ now (rt w'))%Z.
Proof.
  unfold awaitPromise.
  destruct (promises (rt w) !! p) as [[|v|e]|]; try (by intros [= _ <-]); try done.
  destruct (map_to_list _) as [|[t tm] l]; [done|].
  destruct (promises (rt (advance _ w)) !! p) as [[|v|e]|]; try done.
  all: intros [= _ <-]; rewrite advance_now; lia.
Qed.

(** A call of [openUrl] that returns has used one launch and no
    identifier or sleep, has handed [url] to [open], and has not turned
    the clock back. *)
Lemma openUrl_counts env url requestId m x m' :
  openUrl env url requestId m = Some (x, m') →
  nUuid m' = nUuid m ∧ nOpen m' = S (nOpen m) ∧ nSleep m' = nSleep m
  ∧ opened m' = opened m ++ [url]
  ∧ (now (rt (world m)) ≤ now (rt (world m')))%Z.
Proof.
  unfold openUrl. rewrite registerRequest_eq. set (w1 := mkWorld _ _).
  assert (Hrun : (now (rt (world m)) ≤ now (rt (run (during env (nOpen m)) w1)))%Z).
  { rewrite run_now. pose proof (elapsed_nonneg (during env (nOpen m))). simpl. lia. }
  destruct (launch env (nOpen m)); [| |done].
  - destruct (awaitPromise _ _) as [[[e|response] w3]|] eqn:Ha; [| |done].
    + intros [= _ <-]. apply awaitPromise_now in Ha. simpl. repeat split; try done. lia.
    + apply awaitPromise_now in Ha.
      destruct (negb (cr_success response)); intros [= _ <-]; simpl;
        repeat split; try done; lia.
  - intros [= _ <-]. simpl. repeat split; done.
Qed.

Lemma invoke_counts {T} env endpoint params (k : gmap string string → Error + T) m x m' :
  invoke env endpoint params k m = Some (x, m') →
  nSleep m' = nSleep m ∧ nOpen m' = S (nOpen m)
  ∧ length (opened m') = S (length (opened m))
  ∧ (now (rt (world m)) ≤ now (rt (world m')))%Z.
Proof.
  unfold invoke, buildUrlM. destruct (buildUrl _ _ _ _) as [url id].
  set (m1 := mkMachine _ _ _ _ _ _).
  destruct (openUrl env url id m1) as [[y m2]|] eqn:Ho; [|done].
  apply openUrl_counts in Ho as (_ & Hno & Hns & Hop & Hnow). simpl in *.
  destruct y; intros [= _ <-]; rewrite Hop, length_app; simpl;
    repeat split; try done; lia.
Qed.

(** When every attempt throws, what the attempts consume adds up in the
    world that [executeWithRetry] ends in. *)
Lemma exhausted_counts {T} env client (fn : Machine → Async T) n : ∀ retries m,
  (∀ m x m1, fn m = Some (x, m1) →
     nSleep m1 = nSleep m ∧ nOpen m1 = S (nOpen m)
     ∧ length (opened m1) = S (length (opened m))
     ∧ (now (rt (world m)) ≤ now (rt (world m1)))%Z) →
  Z.to_nat retries = n → (0 ≤ retries)%Z →
  forallb failed (attempts env client fn retries m) = true →
  ∀ r m', executeWithRetry env client fn retries m = Some (r, m') →
    nSleep m' = nSleep m + n ∧ nOpen m' = nOpen m + S n
    ∧ length (opened m') = length (opened m) + S n
    ∧ (now (rt (world m)) + Z.of_nat n * retryDelay client ≤ now (rt (world m')))%Z.
Proof.
  intros retries m Hfn. revert retries m.
  induction n as [|n IH]; intros retries m Hn Hpos Hall r m';
    rewrite attempts_eq in Hall; rewrite executeWithRetry_eq; simpl in Hall;
    apply andb_true_iff in Hall as [Hf Hall]; unfold failed in Hf; simpl in Hf;
    destruct (fn m) as [[[e|v] m1]|] eqn:Hm; try done;
    destruct (decide (retries > 0)%Z) as [Hgt|Hle]; try lia;
    destruct (Hfn _ _ _ Hm) as (Hns & Hno & Hop & Hnow).
  - intros [= _ <-]. repeat split; lia.
  - intros Hex.
    destruct (IH (retries - 1)%Z (sleep env client m1) ltac:(lia) ltac:(lia) Hall r m' Hex)
      as (Hns' & Hno' & Hop' & Hnow').
    pose proof (sleep_now env client m1). simpl in Hns', Hno', Hop'.
    repeat split; lia.
Qed.

(** ** The specified behaviour of the client *)

(** C5.  With [maxRetries = N >= 0] and [retryDelay = D], an operation
    whose every attempt throws makes exactly [N + 1] attempts; each attempt
    after the first starts at least [D] ms after the previous one ended;
    and the caller gets the error thrown by the last attempt. *)
Theorem retries_exhausted {T : Type} (env : Env) (client : DraftsClient)
    (fn : Machine → Async T) (m : Machine) :
  (0 ≤ maxRetries client)%Z →
  forallb failed (attempts env client fn (maxRetries client) m) = true →
  let h := attempts env client fn (maxRetries client) m in
  Z.of_nat (length h) = (maxRetries client + 1)%Z
  ∧ (∀ k a b, h !! k = Some a → h !! S k = Some b →
       ∃ ea ma, a.2 = Some (inl ea, ma)
                ∧ (now (rt (world ma)) + retryDelay client ≤ now (rt (world b.1)))%Z)
  ∧ ∃ e ml m', last h = Some (ml, Some (inl e, m'))
               ∧ executeWithRetry env client fn (maxRetries client) m = Some (inl e, m').
Proof.
  intros Hpos Hall h.
  destruct (exhausted env client fn _ _ m eq_refl Hpos Hall)
    as (e & ml & m' & Hex & Hlen & Hlast & Hgap).
  fold h in Hlen, Hlast, Hgap. split; [rewrite Hlen; lia|]. split.
  - intros k a b Ha Hb. destruct (Hgap k a b Ha Hb) as (ea & ma & Hea & ->).
    exists ea, ma. split; [done|]. apply sleep_now.
  - by exists e, ml, m'.
Qed.

(** [maxRetries = 1], [retryDelay = 100]; the application answers each
    launch with an error callback. *)
Lemma retries_exhausted_witness :
  let env := answering XError [("error", "Something went wrong")] 7 in
  let client := mkClient 1 100 in
  let fn := appendToDraftAttempt env "U" "more" in
  let h := attempts env client fn 1 started in
  Z.of_nat (length h) = (1 + 1)%Z
  ∧ (∀ k a b, h !! k = Some a → h !! S k = Some b →
       ∃ ea ma, a.2 = Some (inl ea, ma)
                ∧ (now (rt (world ma)) + 100 ≤ now (rt (world b.1)))%Z)
  ∧ ∃ e ml m', last h = Some (ml, Some (inl e, m'))
               ∧ executeWithRetry env client fn 1 started = Some (inl e, m').
Proof.
  apply (retries_exhausted (answering XError [("error", "Something went wrong")] 7)
           (mkClient 1 100)
           (appendToDraftAttempt (answering XError [("error", "Something went wrong")] 7)
              "U" "more") started).
  - simpl. lia.
  - vm_compute. reflexivity.
Defined.

(** ** Validation in [openDraft] *)

Lemma validation_loop env client uuid title n : ∀ retries m,
  missing uuid = true → missing title = true → Z.to_nat retries = n →
  ∃ m', executeWithRetry env client (openDraftAttempt env uuid title) retries m
        = Some (inl validationError, m')
    ∧ length (attempts env client (openDraftAttempt env uuid title) retries m) = S n
    ∧ opened m' = opened m ∧ nOpen m' = nOpen m ∧ nUuid m' = nUuid m
    ∧ nSleep m' = nSleep m + n
    ∧ (now (rt (world m)) + Z.of_nat n * retryDelay client ≤ now (rt (world m')))%Z.
Proof.
  intros retries m Hu Ht. revert retries m.
  assert (Hfn : ∀ m, openDraftAttempt env uuid title m = Some (inl validationError, m)).
  { intros m. unfold openDraftAttempt. by rewrite Hu, Ht. }
  induction n as [|n IH]; intros retries m Hn;
    rewrite executeWithRetry_eq, attempts_eq, Hfn;
    destruct (decide (retries > 0)%Z) as [Hgt|Hle]; try lia.
  - exists m. repeat split; try done; simpl; lia.
  - destruct (IH (retries - 1)%Z (sleep env client m)) as
      (m' & Hex & Hlen & Hop & Hno & Hnu & Hns & Hnow); [lia|].
    exists m'. split; [done|]. split; [simpl; by rewrite Hlen|].
    pose proof (sleep_now env client m). simpl in Hop, Hno, Hnu, Hns.
    repeat split; try done; lia.
Qed.

(** C4 fails with [maxRetries = 1], [retryDelay = 100]: the validation is
    attempted twice, 100 ms apart. *)
Lemma validation_is_retried :
  ¬ validation_not_retried (answering XSuccess [] 0) (mkClient 1 100) started
  ∧ length (attempts (answering XSuccess [] 0) (mkClient 1 100)
              (openDraftAttempt (answering XSuccess [] 0) None None) 1 started) = 2
  ∧ ∃ m', openDraft (answering XSuccess [] 0) (mkClient 1 100) None None started
          = Some (inl validationError, m')
          ∧ nSleep m' = 1 ∧ now (rt (world m')) = 100%Z.
Proof.
  split; [|split].
  - intros [H _]. vm_compute in H. discriminate.
  - vm_compute. reflexivity.
  - eexists. vm_compute. done.
Qed.

(** C4, amended.  Without uuid and title (each missing or empty) every
    attempt of [openDraft] throws "Either uuid or title must be provided"
    before anything is built or launched; the retry wrapper treats it like
    any other failure: for [maxRetries = N >= 0] there are [N + 1]
    attempts and [N] retry delays of at least [retryDelay] ms each, no URL
    is ever opened, and the validation error is what the caller gets. *)
Theorem openDraft_validation_retried (env : Env) (client : DraftsClient)
    (uuid title : option string) (m : Machine) :
  missing uuid = true → missing title = true →
  let n := Z.to_nat (maxRetries client) in
  ∃ m', openDraft env client uuid title m
        = Some (inl (mkError "Either uuid or title must be provided"), m')
    ∧ length (attempts env client (openDraftAttempt env uuid title) (maxRetries client) m)
      = S n
    ∧ opened m' = opened m ∧ nOpen m' = nOpen m
    ∧ nSleep m' = nSleep m + n
    ∧ (now (rt (world m)) + Z.of_nat n * retryDelay client ≤ now (rt (world m')))%Z.
Proof.
  intros Hu Ht n.
  destruct (validation_loop env client uuid title n (maxRetries client) m Hu Ht eq_refl)
    as (m' & Hex & Hlen & Hop & Hno & _ & Hns & Hnow).
  exists m'. repeat split; done.
Qed.

Lemma openDraft_validation_retried_witness :
  let env := answering XSuccess [] 0 in
  let client := mkClient 1 100 in
  ∃ m', openDraft env client None (Some "") started
        = Some (inl (mkError "Either uuid or title must be provided"), m')
    ∧ length (attempts env client (openDraftAttempt env None (Some "")) 1 started) = 2
    ∧ opened m' = opened started ∧ nOpen m' = nOpen started
    ∧ nSleep m' = nSleep started + 1
    ∧ (now (rt (world started)) + Z.of_nat 1 * 100 ≤ now (rt (world m')))%Z.
Proof.
  apply (openDraft_validation_retried (answering XSuccess [] 0) (mkClient 1 100)
           None (Some "") started); reflexivity.
Defined.

(** ** [getDraft] without content *)

Lemma getDraftAttempt_noText env uuid m :
  receivesNoText env uuid m = true →
  ∃ m2, getDraftAttempt env uuid m = Some (inl noContent, m2).
Proof.
  unfold receivesNoText, getDraftAttempt, invoke.
  destruct (buildUrlM _ _ _ _) as [[url requestId] m1].
  destruct (openUrl _ _ _ _) as [[[e|response] m2]|]; try done.
  intros H. exists m2. unfold parseDraft. by rewrite H.
Qed.

Lemma forallb_Forall {A} (f : A → bool) (l : list A) :
  forallb f l = true → Forall (λ a, f a = true) l.
Proof.
  induction l as [|a l IH]; simpl; [constructor|].
  intros [? ?]%andb_true_iff. constructor; auto.
Qed.

Lemma Forall_forallb {A} (f : A → bool) (l : list A) :
  Forall (λ a, f a = true) l → forallb f l = true.
Proof. induction 1; simpl; [done|]. apply andb_true_iff; auto. Qed.

(** C10.  When an attempt of [getDraft] gets a success outcome whose
    mapping has no non-empty [text], the attempt throws "No content
    returned from Drafts"; the throw happens inside the retry wrapper, so
    when every attempt ends that way and [maxRetries = N >= 0], [getDraft]
    makes [N + 1] attempts (it launches [N + 1] URLs and sleeps [N] times,
    at least [retryDelay] ms each time) and the caller gets that error,
    from the last attempt. *)
Theorem getDraft_no_content_retried (env : Env) (client : DraftsClient)
    (uuid : string) (m : Machine) :
  (0 ≤ maxRetries client)%Z →
  forallb (λ a, receivesNoText env uuid a.1)
    (attempts env client (getDraftAttempt env uuid) (maxRetries client) m) = true →
  let h := attempts env client (getDraftAttempt env uuid) (maxRetries client) m in
  let n := Z.to_nat (maxRetries client) in
  Forall (λ a, ∃ m2, a.2 = Some (inl (mkError "No content returned from Drafts"), m2)) h
  ∧ Z.of_nat (length h) = (maxRetries client + 1)%Z
  ∧ ∃ ml m', getDraft env client uuid m
             = Some (inl (mkError "No content returned from Drafts"), m')
      ∧ last h = Some (ml, Some (inl (mkError "No content returned from Drafts"), m'))
      ∧ nSleep m' = nSleep m + n
      ∧ nOpen m' = nOpen m + S n
      ∧ length (opened m') = length (opened m) + S n
      ∧ (now (rt (world m)) + Z.of_nat n * retryDelay client ≤ now (rt (world m')))%Z.
Proof.
  intros Hpos Hall h n.
  assert (Herr : Forall (λ a, ∃ m2, a.2 = Some (inl noContent, m2)) h).
  { pose proof (attempts_snd env client (getDraftAttempt env uuid) _
                  (maxRetries client) m eq_refl) as Hsnd.
    apply forallb_Forall in Hall. fold h in Hsnd, Hall.
    rewrite Forall_forall in *. intros a Ha.
    destruct (getDraftAttempt_noText env uuid a.1 (Hall a Ha)) as [m2 H2].
    exists m2. etrans; [exact (Hsnd a Ha)|exact H2]. }
  assert (Hfail : forallb failed h = true).
  { apply Forall_forallb. eapply Forall_impl; [exact Herr|].
    intros [ma r] [m2 Ha]. simpl in Ha. by subst r. }
  destruct (exhausted env client (getDraftAttempt env uuid) _ (maxRetries client) m
              eq_refl Hpos Hfail)
    as (e & ml & m' & Hex & Hlen & Hlast & _). fold h in Hlen, Hlast.
  assert (e = noContent) as ->.
  { apply last_Some_elem_of in Hlast. rewrite Forall_forall in Herr.
    destruct (Herr _ Hlast) as [m2 Heq]. simpl in Heq. by injection Heq as -> _. }
  split; [exact Herr|]. split; [rewrite Hlen; lia|].
  exists ml, m'. split; [exact Hex|]. split; [exact Hlast|].
  apply (exhausted_counts env client (getDraftAttempt env uuid) n (maxRetries client) m)
    with (r := inl noContent); try done.
  intros m0 x m1. apply invoke_counts.
Qed.

(** [maxRetries = 1]; the application answers each launch with a success
    callback carrying only a title. *)
Lemma getDraft_no_content_retried_witness :
  let env := answering XSuccess [("title", "Shopping")] 0 in
  let client := mkClient 1 100 in
  let h := attempts env client (getDraftAttempt env "U") 1 started in
  Forall (λ a, ∃ m2, a.2 = Some (inl (mkError "No content returned from Drafts"), m2)) h
  ∧ Z.of_nat (length h) = (1 + 1)%Z
  ∧ ∃ ml m', getDraft env client "U" started
             = Some (inl (mkError "No content returned from Drafts"), m')
      ∧ last h = Some (ml, Some (inl (mkError "No content returned from Drafts"), m'))
      ∧ nSleep m' = nSleep started + 1
      ∧ nOpen m' = nOpen started + 2
      ∧ length (opened m') = length (opened started) + 2
      ∧ (now (rt (world started)) + Z.of_nat 1 * 100 ≤ now (rt (world m')))%Z.
Proof.
  apply (getDraft_no_content_retried (answering XSuccess [("title", "Shopping")] 0)
           (mkClient 1 100) "U" started).
  - simpl. lia.
  - vm_compute. reflexivity.
Defined.

(** ** Percent-encoding *)

Lemma flatMapString_app f s1 s2 :
  flatMapString f (s1 +:+ s2) = flatMapString f s1 +:+ flatMapString f s2.
Proof.
  induction s1 as [|c s1 IH]; [done|].
  change (f c +:+ flatMapString f (s1 +:+ s2)
          = (f c +:+ flatMapString f s1) +:+ flatMapString f s2).
  by rewrite IH, append_assoc.
Qed.

(** The serializer used by [buildUrl] copies an asterisk, wherever it
    stands. *)
Lemma formEncode_asterisk s1 s2 :
  formEncode (s1 +:+ "*" +:+ s2) = formEncode s1 +:+ "*" +:+ formEncode s2.
Proof. unfold formEncode. by rewrite !flatMapString_app. Qed.

(** The encoder that [buildUrl] does not call escapes it. *)
Lemma encodeURIComponentSafe_asterisk s1 s2 :
  encodeURIComponentSafe (s1 +:+ "*" +:+ s2)
  = encodeURIComponentSafe s1 +:+ "%2A" +:+ encodeURIComponentSafe s2.
Proof. unfold encodeURIComponentSafe, encodeURIComponent. by rewrite !flatMapString_app. Qed.

(** C3: what the code does.  For [createDraft({text: "it's (a*b)!"})] the
    URL built by [buildUrl] escapes [!], ['], [(] and [)] but carries the
    asterisk as it is; [encodeURIComponentSafe], which would have escaped
    all five, is not what [buildUrl] uses. *)
Theorem buildUrl_keeps_asterisk :
  (buildUrl (mkServer 49152 Listening ∅) "id-0" "create"
     [("text", PString "it's (a*b)!"); ("tag", PUndefined);
      ("action", PUndefined); ("folder", PUndefined)]).1
  = "drafts://x-callback-url/create?text=it%27s+%28a*b%29%21"
    +:+ "&x-success=http%3A%2F%2Flocalhost%3A49152%2Fx-success%2Fid-0"
    +:+ "&x-error=http%3A%2F%2Flocalhost%3A49152%2Fx-error%2Fid-0"
    +:+ "&x-cancel=http%3A%2F%2Flocalhost%3A49152%2Fx-cancel%2Fid-0"
  ∧ encodeURIComponentSafe "it's (a*b)!" = "it%27s%20%28a%2Ab%29%21".
Proof. split; vm_compute; reflexivity. Qed.

(** * Further properties *)

(** ** The two encoders, character by character *)

Lemma chars_app (a b : string) : chars (a +:+ b) = chars a ++ chars b.
Proof.
  induction a as [|c a IH]; [done|].
  change (c :: chars (a +:+ b) = c :: (chars a ++ chars b)). by rewrite IH.
Qed.

Lemma flatMapString_compose f g s :
  flatMapString g (flatMapString f s) = flatMapString (λ c, flatMapString g (f c)) s.
Proof.
  induction s as [|c s IH]; [done|].
  change (flatMapString g (f c +:+ flatMapString f s)
          = flatMapString g (f c) +:+ flatMapString (λ c, flatMapString g (f c)) s).
  by rewrite flatMapString_app, IH.
Qed.

Lemma encodeURIComponentSafe_bytes s : encodeURIComponentSafe s = flatMapString safeByte s.
Proof. unfold encodeURIComponentSafe, encodeURIComponent. apply flatMapString_compose. Qed.

Lemma flatMapString_chars (P : ascii → Prop) f s :
  (∀ c, Forall P (chars (f c))) → Forall P (chars (flatMapString f s)).
Proof.
  intros Hf. induction s as [|c s IH]; [constructor|].
  change (Forall P (chars (f c +:+ flatMapString f s))).
  rewrite chars_app. apply Forall_app. auto.
Qed.

(** Case analysis on the 256 bytes. *)
Ltac each_byte c := destruct c as [[] [] [] [] [] [] [] []].

Lemma safeByte_alphabet c :
  forallb (λ c, isAlnum c || memChar c "-_.~%") (chars (safeByte c)) = true.
Proof. each_byte c; vm_compute; reflexivity. Qed.

Lemma formByte_alphabet c :
  forallb (λ c, isAlnum c || memChar c "*-._+%") (chars (formByte c)) = true.
Proof. each_byte c; vm_compute; reflexivity. Qed.

Lemma safeByte_decode c r :
  percentDecode false (safeByte c +:+ r) = String c (percentDecode false r).
Proof. each_byte c; reflexivity. Qed.

Lemma formByte_decode c r :
  percentDecode true (formByte c +:+ r) = String c (percentDecode true r).
Proof. each_byte c; reflexivity. Qed.

Lemma alphabet_spec (allowed : string) (c : ascii) :
  isAlnum c || memChar c allowed = true → isAlnum c = true ∨ c ∈ chars allowed.
Proof.
  intros [H|H]%orb_true_iff; [by left|right]. by apply bool_decide_eq_true in H.
Qed.

Lemma safe_alphabet str :
  Forall (λ c, isAlnum c || memChar c "-_.~%" = true) (chars (encodeURIComponentSafe str)).
Proof.
  rewrite encodeURIComponentSafe_bytes. apply flatMapString_chars. intros c.
  apply forallb_Forall, safeByte_alphabet.
Qed.

(** X1.  Whatever the input, [encodeURIComponentSafe] yields only letters,
    digits and [- _ . ~ %]; in particular none of [! ' ( ) *] is left. *)
Theorem encodeURIComponentSafe_alphabet (str : string) :
  Forall (λ c, isAlnum c = true ∨ c ∈ chars "-_.~%") (chars (encodeURIComponentSafe str))
  ∧ Forall (λ c, c ∉ chars "!'()*") (chars (encodeURIComponentSafe str)).
Proof.
  pose proof (safe_alphabet str) as H. split.
  - eapply Forall_impl; [exact H|]. intros c. apply alphabet_spec.
  - eapply Forall_impl; [exact H|]. intros c Hc Hin.
    assert (Hm : memChar c "!'()*" = true) by (by apply bool_decide_eq_true).
    revert Hc Hm. each_byte c; vm_compute; congruence.
Qed.

(** X2.  Percent-decoding gives back what [encodeURIComponentSafe] was
    given; so two different strings never have the same encoding. *)
Theorem encodeURIComponentSafe_roundtrip :
  (∀ str, percentDecode false (encodeURIComponentSafe str) = str)
  ∧ (∀ s1 s2, encodeURIComponentSafe s1 = encodeURIComponentSafe s2 → s1 = s2).
Proof.
  assert (H : ∀ str, percentDecode false (encodeURIComponentSafe str) = str).
  { intros str. rewrite encodeURIComponentSafe_bytes.
    induction str as [|c s IH]; [done|].
    change (percentDecode false (safeByte c +:+ flatMapString safeByte s) = String c s).
    by rewrite safeByte_decode, IH. }
  split; [exact H|]. intros s1 s2 E. by rewrite <- (H s1), <- (H s2), E.
Qed.

(** ** The query string of the URL *)

Lemma formEncode_alphabet s :
  Forall (λ c, isAlnum c || memChar c "*-._+%" = true) (chars (formEncode s)).
Proof. apply flatMapString_chars. intros c. apply forallb_Forall, formByte_alphabet. Qed.

Lemma formEncode_free c s :
  isAlnum c || memChar c "*-._+%" = false → c ∉ chars (formEncode s).
Proof.
  intros Hc Hin. pose proof (formEncode_alphabet s) as H.
  rewrite Forall_forall in H. specialize (H c Hin). congruence.
Qed.

Lemma formEncode_decode s : percentDecode true (formEncode s) = s.
Proof.
  induction s as [|c s IH]; [done|].
  change (percentDecode true (formByte c +:+ formEncode s) = String c s).
  by rewrite formByte_decode, IH.
Qed.

Lemma split_nosep sep p : sep ∉ chars p → split sep p = [p].
Proof.
  induction p as [|c p IH]; [done|]. intros [Hc Hp]%not_elem_of_cons.
  simpl. rewrite bool_decide_eq_false_2 by congruence. by rewrite IH.
Qed.

Lemma split_app_sep sep p r :
  sep ∉ chars p → split sep (p +:+ String sep r) = p :: split sep r.
Proof.
  induction p as [|c p IH].
  - intros _. change (split sep (String sep r) = "" :: split sep r).
    simpl. by rewrite bool_decide_eq_true_2.
  - intros [Hc Hp]%not_elem_of_cons.
    change (split sep (String c (p +:+ String sep r)) = String c p :: split sep r).
    simpl. rewrite bool_decide_eq_false_2 by congruence. by rewrite IH.
Qed.

Lemma splitFirst_app sep p r :
  sep ∉ chars p → splitFirst sep (p +:+ String sep r) = (p, r).
Proof.
  induction p as [|c p IH].
  - intros _. change (splitFirst sep (String sep r) = ("", r)).
    simpl. by rewrite bool_decide_eq_true_2.
  - intros [Hc Hp]%not_elem_of_cons.
    change (splitFirst sep (String c (p +:+ String sep r)) = (String c p, r)).
    simpl. rewrite bool_decide_eq_false_2 by congruence. by rewrite IH.
Qed.

Lemma split_concat (sep : ascii) (segs : list string) :
  Forall (λ p, sep ∉ chars p) segs → segs ≠ [] →
  split sep (String.concat (String sep "") segs) = segs.
Proof.
  induction 1 as [|x segs Hx Hall IH]; [done|]. intros _.
  destruct segs as [|y segs]; [by apply split_nosep|].
  change (split sep (x +:+ String sep (String.concat (String sep "") (y :: segs)))
          = x :: y :: segs).
  rewrite split_app_sep by done. by rewrite IH.
Qed.

Lemma filter_all {A} (P : A → Prop) `{∀ x, Decision (P x)} (l : list A) :
  Forall P l → filter P l = l.
Proof.
  induction 1 as [|x l Hx Hl IH]; [done|]. by rewrite filter_cons_True, IH.
Qed.

(** The piece of the query string that one pair becomes. *)
Lemma piece_facts (kv : string * string) :
  let piece := formEncode kv.1 +:+ "=" +:+ formEncode kv.2 in
("&"%char ∉ chars piece) ∧ piece ≠ EmptyString
  ∧ splitFirst "=" piece = (formEncode kv.1, formEncode kv.2).
Proof.
  intros piece. split; [|split].
  - unfold piece. rewrite !chars_app. intros [H|[H|H]%elem_of_app]%elem_of_app.
    + by apply formEncode_free in H.
    + apply list_elem_of_singleton in H. discriminate.
    + by apply formEncode_free in H.
  - unfold piece. intros E. apply (f_equal chars) in E. rewrite !chars_app in E.
    by destruct (chars (formEncode kv.1)).
  - apply (splitFirst_app "=" (formEncode kv.1) (formEncode kv.2)).
    by apply formEncode_free.
Qed.

Lemma parseQuery_toString (urlParams : list (string * string)) :
  parseQuery (urlParamsToString urlParams) = urlParams.
Proof.
  unfold parseQuery, urlParamsToString.
  set (piece := λ kv : string * string, formEncode kv.1 +:+ "=" +:+ formEncode kv.2).
  destruct urlParams as [|kv l]; [done|].
  rewrite (split_concat "&" (piece <$> kv :: l)); [| |done].
  - rewrite filter_all.
    + rewrite <- list_fmap_compose. rewrite <- (list_fmap_id (kv :: l)) at 2.
      apply list_fmap_ext. intros _ [k v] _. simpl.
      destruct (piece_facts (k, v)) as (_ & _ & E). fold (piece (k, v)) in E.
      rewrite E. simpl. by rewrite !formEncode_decode.
    + apply Forall_fmap, Forall_true. intros x. apply (piece_facts x).
  - apply Forall_fmap, Forall_true. intros x. apply (piece_facts x).
Qed.

Lemma toUSVString_eq a r :
  toUSVString (String a r)
  = match r with
    | String b (String c r') =>
        if isSurrogate a b c
        then String "239" (String "191" (String "189" (toUSVString r')))
        else String a (toUSVString r)
    | _ => String a (toUSVString r)
    end.
Proof. by destruct r as [|b [|c r']]. Qed.

(** [toUSVString] changes a string exactly when it holds an unpaired
    surrogate. *)
Lemma toUSVString_fixed s : toUSVString s = s ↔ hasSurrogate s = false.
Proof.
  induction s as [|a r IH]; [done|].
  rewrite toUSVString_eq. cbn [hasSurrogate].
  destruct r as [|b [|c r']].
  - done.
  - done.
  - destruct (isSurrogate a b c) eqn:E.
    + split; [|done]. intros H. assert (a = "239"%char) as -> by congruence.
      by vm_compute in E.
    + rewrite orb_false_l, <- IH. split; intros H; [by injection H|by rewrite H].
Qed.

Lemma foldl_urlParamsAppend {A} (name value : A → string) acc (l : list A) :
  foldl (λ urlParams x, urlParamsAppend urlParams (name x) (value x)) acc l
  = acc ++ ((λ x, (toUSVString (name x), toUSVString (value x))) <$> l).
Proof.
  revert acc. induction l as [|v l IH]; intros acc; simpl; [by rewrite app_nil_r|].
  rewrite IH. unfold urlParamsAppend. by rewrite <- app_assoc.
Qed.

Lemma foldl_append_key k acc (vs : list string) :
  foldl (λ urlParams v, urlParamsAppend urlParams k v) acc vs
  = acc ++ ((λ v, (toUSVString k, toUSVString v)) <$> vs).
Proof. exact (foldl_urlParamsAppend (λ _, k) (λ v, v) acc vs). Qed.

Lemma paramPairs_eq (kv : string * ParamValue) :
  paramPairs kv
  = match kv.2 with
    | PUndefined => []
    | PArray vs => (λ v, (toUSVString kv.1, toUSVString v)) <$> vs
    | PBool b => [(toUSVString kv.1, if b then "true" else "false")]
    | PString v => [(toUSVString kv.1, toUSVString v)]
    end.
Proof.
  destruct kv as [k [v|vs|[]|]]; unfold paramPairs, appendParam; try done. simpl.
  apply (foldl_append_key k [] vs).
Qed.

Lemma appendParam_app acc kv : appendParam acc kv = acc ++ paramPairs kv.
Proof.
  destruct kv as [k [v|vs|b|]]; unfold paramPairs, appendParam; simpl;
    try done; [|by rewrite app_nil_r].
  by rewrite (foldl_append_key k acc vs), (foldl_append_key k [] vs).
Qed.

Lemma foldl_appendParam acc params :
  foldl appendParam acc params = acc ++ (params ≫= paramPairs).
Proof.
  revert acc. induction params as [|kv params IH]; intros acc; simpl.
  - by rewrite app_nil_r.
  - by rewrite IH, appendParam_app, <- app_assoc.
Qed.

(** For the text ['a\uD800b'] the query carries U+FFFD in the place of the
    surrogate. *)
Example lone_surrogate_ex :
  (buildUrl (mkServer 49152 Listening ∅) "id-0" "create"
     [("text", PString loneSurrogateText)]).1
  = "drafts://x-callback-url/create?text=a%EF%BF%BDb"
    +:+ "&x-success=http%3A%2F%2Flocalhost%3A49152%2Fx-success%2Fid-0"
    +:+ "&x-error=http%3A%2F%2Flocalhost%3A49152%2Fx-error%2Fid-0"
    +:+ "&x-cancel=http%3A%2F%2Flocalhost%3A49152%2Fx-cancel%2Fid-0".
Proof. vm_compute. reflexivity. Qed.

(** X3.  [URLSearchParams.append] stores a name and a value with every
    unpaired surrogate replaced by U+FFFD.  In the query string written by
    [URLSearchParams.toString] each stored name or value is encoded with
    letters, digits and [* - . _ + %] only, so the only [&] and [=] are the
    separators put between and inside the pairs: a standard parser reads
    back the stored pairs, in order.  So it reads back exactly the pairs
    that were appended if and only if none of them holds an unpaired
    surrogate. *)
Theorem urlParams_roundtrip (pairs : list (string * string)) :
  let urlParams := foldl (λ urlParams kv, urlParamsAppend urlParams kv.1 kv.2) [] pairs in
  Forall (λ kv, Forall (λ c, isAlnum c = true ∨ c ∈ chars "*-._+%")
                  (chars (formEncode kv.1) ++ chars (formEncode kv.2))) urlParams
  ∧ parseQuery (urlParamsToString urlParams)
    = (λ kv, (toUSVString kv.1, toUSVString kv.2)) <$> pairs
  ∧ (parseQuery (urlParamsToString urlParams) = pairs
     ↔ Forall (λ kv, hasSurrogate kv.1 = false ∧ hasSurrogate kv.2 = false) pairs).
Proof.
  intros urlParams.
  assert (E : parseQuery (urlParamsToString urlParams)
              = (λ kv, (toUSVString kv.1, toUSVString kv.2)) <$> pairs).
  { rewrite parseQuery_toString. unfold urlParams.
    exact (foldl_urlParamsAppend fst snd [] pairs). }
  split; [|split; [exact E|]].
  - apply Forall_true. intros [k v]. apply Forall_app. split.
    all: eapply Forall_impl; [apply formEncode_alphabet|]; intros c; apply alphabet_spec.
  - rewrite E. clear. induction pairs as [|[k v] l IH].
    + split; [constructor|done].
    + rewrite fmap_cons, Forall_cons, <- IH, <- !toUSVString_fixed. simpl. split.
      * intros [= -> -> ->]. done.
      * intros [[-> ->] ->]. done.
Qed.

(** X4.  The URL made by [buildUrl] is the scheme, the endpoint as it is,
    [?] and a query string; read by a standard parser, that query string
    holds the parameters in the order of [params] (an undefined one left
    out, an array as one pair per element, a boolean as true or false) and
    then [x-success], [x-error] and [x-cancel] with the callback URLs of
    the request identifier that is returned.  Names and values arrive with
    every unpaired surrogate replaced by U+FFFD; the parameters arrive as
    they were given when none of their strings holds one. *)
Theorem buildUrl_query (s : CallbackServer) (requestId endpoint : string)
    (params : list (string * ParamValue)) :
  let callbacks :=
    [("x-success", toUSVString (u_success (getCallbackUrls requestId s)));
     ("x-error", toUSVString (u_error (getCallbackUrls requestId s)));
     ("x-cancel", toUSVString (u_cancel (getCallbackUrls requestId s)))] in
  ∃ q, buildUrl s requestId endpoint params
       = ("drafts://x-callback-url/" +:+ endpoint +:+ "?" +:+ q, requestId)
    ∧ parseQuery q
      = (params ≫= λ kv, match kv.2 with
                          | PUndefined => []
                          | PArray vs => (λ v, (toUSVString kv.1, toUSVString v)) <$> vs
                          | PBool b => [(toUSVString kv.1, if b then "true" else "false")]
                          | PString v => [(toUSVString kv.1, toUSVString v)]
                          end)
        ++ callbacks
    ∧ (Forall (λ kv, Forall (λ str, hasSurrogate str = false) (paramStrings kv)) params →
       parseQuery q
       = (params ≫= λ kv, match kv.2 with
                           | PUndefined => []
                           | PArray vs => (λ v, (kv.1, v)) <$> vs
                           | PBool b => [(kv.1, if b then "true" else "false")]
                           | PString v => [(kv.1, v)]
                           end)
         ++ callbacks).
Proof.
  intros callbacks. eexists. split; [reflexivity|].
  assert (E : ∀ l, parseQuery (urlParamsToString
                (urlParamsAppend (urlParamsAppend (urlParamsAppend l
                   "x-success" (u_success (getCallbackUrls requestId s)))
                   "x-error" (u_error (getCallbackUrls requestId s)))
                   "x-cancel" (u_cancel (getCallbackUrls requestId s))))
              = l ++ callbacks).
  { intros l. rewrite parseQuery_toString. unfold urlParamsAppend.
    by rewrite <- !app_assoc. }
  rewrite E, foldl_appendParam. simpl.
  assert (Hp : params ≫= paramPairs
               = params ≫= λ kv, match kv.2 with
                                  | PUndefined => []
                                  | PArray vs => (λ v, (toUSVString kv.1, toUSVString v)) <$> vs
                                  | PBool b => [(toUSVString kv.1, if b then "true" else "false")]
                                  | PString v => [(toUSVString kv.1, toUSVString v)]
                                  end).
  { apply list_bind_ext; [intros kv; apply paramPairs_eq|done]. }
  rewrite Hp. split; [done|]. intros Hwf. f_equal. clear -Hwf.
  induction Hwf as [|[k v] l Hkv _ IH]; [done|]. rewrite !bind_cons, IH. f_equal.
  unfold paramStrings in Hkv. destruct v as [v|vs|b|]; simpl in *; try done.
  - apply Forall_cons in Hkv as [Hk [Hv _]%Forall_cons].
    apply toUSVString_fixed in Hk, Hv. by rewrite Hk, Hv.
  - apply Forall_cons in Hkv as [Hk Hvs]. apply toUSVString_fixed in Hk. rewrite Hk.
    apply list_fmap_ext. intros i v Hi. f_equal. apply toUSVString_fixed.
    rewrite Forall_forall in Hvs. apply Hvs. by eapply list_elem_of_lookup_2.
  - apply Forall_cons in Hkv as [Hk _]. apply toUSVString_fixed in Hk. by rewrite Hk.
Qed.

(** ** Requests do not disturb each other *)

(** X5.  In a world the server can reach, a callback for [id] touches
    nothing that belongs to another identifier: the other entries of the
    table stay, their timers keep running, their promises stay pending;
    every promise other than the one of [id]'s entry is as before, and so
    is the clock. *)
Theorem callback_isolated (evs : list Event) (r : Route) (id : string)
    (q : gmap string QueryValue) :
  let w := run evs initWorld in
  let w' := (handle r id q w).2 in
  (∀ id', id' ≠ id → pendingRequests (this w') !! id' = pendingRequests (this w) !! id')
  ∧ (∀ id' e', id' ≠ id → pendingRequests (this w) !! id' = Some e' →
       promises (rt w') !! pr_resolve e' = Some Pending
       ∧ timers (rt w') !! pr_timeout e' = timers (rt w) !! pr_timeout e'
       ∧ is_Some (timers (rt w') !! pr_timeout e'))
  ∧ (∀ p, (∀ e, pendingRequests (this w) !! id = Some e → pr_resolve e ≠ p) →
       promises (rt w') !! p = promises (rt w) !! p)
  ∧ now (rt w') = now (rt w).
Proof.
  intros w w'. assert (Hw : Inv w) by (unfold w; auto with inv).
  destruct Hw as [Hr Htab]. unfold w'. rewrite handle_eq.
  destruct (pendingRequests (this w) !! id) as [e|] eqn:He.
  - destruct (Htab _ _ He) as (_ & tm & Htm & Hid & Hp).
    assert (Hother : ∀ id' e', id' ≠ id → pendingRequests (this w) !! id' = Some e' →
              pr_timeout e' ≠ pr_timeout e ∧ pr_resolve e' ≠ pr_resolve e
              ∧ promises (rt w) !! pr_resolve e' = Some Pending
              ∧ is_Some (timers (rt w) !! pr_timeout e')).
    { intros id' e' Hne He'. destruct (Htab _ _ He') as (_ & tm' & Htm' & Hid' & Hp').
      destruct (inv_timer _ Hr _ _ Htm') as (_ & Hpend & _).
      assert (Ht : pr_timeout e' ≠ pr_timeout e).
      { intros E. rewrite E, Htm in Htm'. congruence. }
      split; [done|]. split; [|split; [congruence|by eexists]].
      intros E. apply Ht. eapply (inv_inj _ Hr); eauto. congruence. }
    split; [|split; [|split]]; try done.
    + intros id' Hne. simpl. by rewrite lookup_delete_ne.
    + intros id' e' Hne He'. destruct (Hother _ _ Hne He') as (Ht & Hp' & Hpend & Hlive).
      cbn [snd rt]. rewrite settle_other by done. simpl.
      rewrite lookup_delete_ne by done. done.
    + intros p Hp'. cbn [snd rt]. rewrite settle_other; [done|]. by apply Hp'.
  - simpl. split; [done|]. split; [|done]. intros id' e' Hne He'.
    destruct (Htab _ _ He') as (_ & tm' & Htm' & _ & Hp').
    destruct (inv_timer _ Hr _ _ Htm') as (_ & Hpend & _).
    split; [congruence|]. split; [done|by eexists].
Qed.

(** ** A request is not timed out early *)

Lemma undisturbed_live_step id w e t tm :
  Inv w → undisturbed id e = true →
  timers (rt w) !! t = Some tm → t_requestId tm = id →
  (now (rt (step w e)) < t_deadline tm)%Z →
  timers (rt (step w e)) !! t = Some tm.
Proof.
  intros Hw He Htm Hid Hnow. destruct e as [pt err|id'|r id' q|dt|err].
  - simpl. by destruct err.
  - simpl. rewrite lookup_insert_ne; [done|].
    destruct Hw as [Hr _]. destruct (inv_timer _ Hr _ _ Htm) as (? & _). lia.
  - simpl in *. destruct (server (this w)); try done. rewrite handle_eq.
    destruct (pendingRequests (this w) !! id') as [e|] eqn:E; [|done]. simpl.
    destruct Hw as [_ Htab]. destruct (Htab _ _ E) as (_ & tm' & Htm' & Hid' & _).
    rewrite lookup_delete_ne; [done|]. intros Heq. rewrite Heq, Htm in Htm'.
    injection Htm' as <-. apply negb_true_iff, String.eqb_neq in He. congruence.
  - change (step w (Advance dt)) with (advance dt w) in *.
    rewrite advance_now in Hnow. by apply advance_timers.
  - done.
Qed.

Lemma undisturbed_live id evs w t tm :
  Inv w → forallb (undisturbed id) evs = true →
  timers (rt w) !! t = Some tm → t_requestId tm = id →
  (now (rt (run evs w)) < t_deadline tm)%Z →
  timers (rt (run evs w)) !! t = Some tm.
Proof.
  revert w. induction evs as [|e evs IH]; intros w Hw Hall Htm Hid Hnow; [done|].
  simpl in Hall. apply andb_true_iff in Hall as [He Hall]. simpl in *.
  apply IH; auto with inv.
  apply (undisturbed_live_step id); auto.
  rewrite run_now in Hnow. pose proof (elapsed_nonneg evs). lia.
Qed.

(** X6.  A request registered under [id] is not timed out early: as long
    as fewer than 30000 ms have passed since [registerRequest], with no
    callback for [id] and no shutdown, the promise is still pending, no
    [resolve] or [reject] has been called on it, and its timer is still
    running with its deadline 30000 ms after the registration. *)
Theorem no_early_timeout (evs0 evs : list Event) (id : string) :
  forallb (undisturbed id) evs = true →
  (elapsed evs < REQUEST_TIMEOUT)%Z →
  let w0 := run evs0 initWorld in
  let '(p, w1) := registerRequest id w0 in
  let w2 := run evs w1 in
  promises (rt w2) !! p = Some Pending
  ∧ calls p (rt w2) = 0
  ∧ timers (rt w2) !! nextTimer (rt w0)
    = Some (mkTimer (now (rt w0) + 30000) id p).
Proof.
  intros Hall Hel w0.
  assert (Hw0 : Inv w0) by (unfold w0; auto with inv).
  pose proof (registerRequest_inv id w0 Hw0) as Hw1.
  rewrite registerRequest_eq in *. simpl in Hw1. set (w1 := mkWorld _ _) in *.
  set (p := length (promises (rt w0))).
  set (tm := mkTimer (now (rt w0) + REQUEST_TIMEOUT) id p).
  assert (Htm : timers (rt w1) !! nextTimer (rt w0) = Some tm) by apply lookup_insert_eq.
  assert (Hlive : timers (rt (run evs w1)) !! nextTimer (rt w0) = Some tm).
  { apply (undisturbed_live id); auto. rewrite run_now. simpl. lia. }
  pose proof (run_inv evs w1 Hw1) as [Hr _].
  destruct (inv_timer _ Hr _ _ Hlive) as (_ & Hp & Hc & _). done.
Qed.

Lemma no_early_timeout_witness :
  let w0 := run [Start 49152 None] initWorld in
  let '(p, w1) := registerRequest "req-D" w0 in
  let w2 := run [Advance 12000; Http XError "other" ∅; Advance 17999] w1 in
  promises (rt w2) !! p = Some Pending
  ∧ calls p (rt w2) = 0
  ∧ timers (rt w2) !! nextTimer (rt w0)
    = Some (mkTimer (now (rt w0) + 30000) "req-D" p).
Proof.
  apply (no_early_timeout [Start 49152 None]
           [Advance 12000; Http XError "other" ∅; Advance 17999] "req-D").
  - reflexivity.
  - vm_compute. reflexivity.
Defined.

(** ** The timer of an overwritten registration *)

Lemma fires_deletes l w t tm :
  timers (rt w) !! t = Some tm → t ∈ l.*1 →
  pendingRequests (this (fires l w)) !! t_requestId tm = None.
Proof.
  revert w. induction l as [|x l IH]; intros w Htm Hin; [by apply elem_of_nil in Hin|].
  change (fires (x :: l) w) with (fires l (fire x.1 w)).
  destruct (decide (x.1 = t)) as [->|Hne].
  - apply fires_table. unfold fire. rewrite Htm. simpl. apply lookup_delete_eq.
  - apply IH.
    + rewrite fire_timers, lookup_delete_ne; done.
    + rewrite fmap_cons in Hin. apply elem_of_cons in Hin as [?|?]; [congruence|done].
Qed.

(** X7.  When [id] is registered while an earlier registration of it is
    still outstanding, the earlier timer keeps running (C2); when it
    fires, it rejects the earlier promise and deletes the table's entry
    for [id], which by then is the newer registration's.  From that moment
    the newer promise is pending with no entry: every callback for [id] is
    answered 200 and ignored, so only its own timeout can settle it. *)
Theorem stale_timer_drops_entry (evs : list Event) (id : string) (e : PendingRequest)
    (tm : Timer) (dt : Z) :
  let w := run evs initWorld in
  pendingRequests (this w) !! id = Some e →
  timers (rt w) !! pr_timeout e = Some tm →
  (t_deadline tm - now (rt w) ≤ dt < REQUEST_TIMEOUT)%Z →
  let '(p, w1) := registerRequest id w in
  let w2 := advance dt w1 in
  pendingRequests (this w2) !! id = None
  ∧ promises (rt w2) !! p = Some Pending
  ∧ promises (rt w2) !! pr_resolve e
    = Some (Rejected (mkError ("Request " +:+ id +:+ " timed out after 30000ms")))
  ∧ ∀ r q, handle r id q w2 = (mkHttp 200 "OK", w2).
Proof.
  intros w He Htm Hdt.
  assert (Hw : Inv w) by (unfold w; auto with inv).
  pose proof (registerRequest_inv id w Hw) as Hw1.
  rewrite registerRequest_eq in *. simpl in Hw1. set (w1 := mkWorld _ _) in *.
  pose proof Hw as [Hr Htab]. destruct (Htab _ _ He) as (_ & tm' & Htm' & Hid & Hp).
  rewrite Htm in Htm'. injection Htm' as <-.
  destruct (inv_timer _ Hr _ _ Htm) as (Hlt & _ & _ & Hd).
  assert (Hold : timers (rt w1) !! pr_timeout e = Some tm).
  { simpl. rewrite lookup_insert_ne; [done|lia]. }
  assert (Hdue : pr_timeout e ∈ (due (now (rt w1) + Z.max 0 dt) (rt w1)).*1).
  { apply list_elem_of_fmap. exists (pr_timeout e, tm). split; [done|].
    apply due_elem. split; [done|]. simpl. lia. }
  assert (Hnone : pendingRequests (this (advance dt w1)) !! id = None).
  { rewrite <- Hid. apply (fires_deletes _ w1 (pr_timeout e) tm Hold Hdue). }
  split; [exact Hnone|]. split; [|split].
  - assert (Hnew : timers (rt (advance dt w1)) !! nextTimer (rt w)
                   = Some (mkTimer (now (rt w) + REQUEST_TIMEOUT) id (length (promises (rt w))))).
    { apply advance_timers. split; [apply lookup_insert_eq|]. simpl. lia. }
    pose proof (advance_inv dt w1 Hw1) as [Hr2 _].
    by destruct (inv_timer _ Hr2 _ _ Hnew) as (_ & Hpend & _).
  - rewrite <- Hp, <- Hid.
    apply (fires_rejects (due (now (rt w1) + Z.max 0 dt) (rt w1)) w1 (pr_timeout e) tm);
      done.
  - intros r q. by apply handle_absent.
Qed.

Lemma stale_timer_drops_entry_witness :
  let w := run [Start 49152 None; Register "req-A"; Advance 10000] initWorld in
  let '(p, w1) := registerRequest "req-A" w in
  let w2 := advance 20000 w1 in
  pendingRequests (this w2) !! "req-A" = None
  ∧ promises (rt w2) !! p = Some Pending
  ∧ promises (rt w2) !! pr_resolve (mkPending 0 0 0)
    = Some (Rejected (mkError ("Request " +:+ "req-A" +:+ " timed out after 30000ms")))
  ∧ ∀ r q, handle r "req-A" q w2 = (mkHttp 200 "OK", w2).
Proof.
  apply (stale_timer_drops_entry [Start 49152 None; Register "req-A"; Advance 10000]
           "req-A" (mkPending 0 0 0) (mkTimer 30000 "req-A" 0) 20000).
  - reflexivity.
  - reflexivity.
  - split; vm_compute; [discriminate|reflexivity].
Defined.

(** ** What the client makes of a callback *)

(** The outcome that [openUrl] hands on for a callback on [r] with query
    [q]. *)
Lemma openUrl_answered env url requestId m r q :
  server (this (world m)) = Listening →
  launch env (nOpen m) = Launched →
  during env (nOpen m) = [Http r requestId q] →
  ∃ w',
    openUrl env url requestId m
    = Some (match r with
            | XSuccess => inr (collectData q)
            | XError => inl (mkError (toString (errorOf q)))
            | XCancel => inl (mkError "User cancelled")
            end,
            {| world := w'; nUuid := nUuid m; nOpen := S (nOpen m); nSleep := nSleep m;
               opened := opened m ++ [url]; unawaited := unawaited m |})
    ∧ now (rt w') = now (rt (world m))
    ∧ pendingRequests (this w') !! requestId = None.
Proof.
  intros Hs Ho Hd. unfold openUrl. rewrite registerRequest_eq, Ho, Hd.
  set (p := length (promises (rt (world m)))).
  set (w1 := mkWorld _ _). cbn [run foldl step].
  assert (Hs1 : server (this w1) = Listening) by done. rewrite Hs1.
  assert (He : pendingRequests (this w1) !! requestId
               = Some (mkPending p p (nextTimer (rt (world m)))))
    by apply lookup_insert_eq.
  rewrite handle_eq, He. cbn [snd].
  set (w2 := mkWorld _ _).
  assert (Hp : promises (rt w2) !! p = Some (Fulfilled (fulfilment r q).1)).
  { unfold w2. cbn [rt pr_resolve].
    rewrite settle_pending_lookup; [by rewrite decide_True|].
    simpl. by rewrite lookup_app_r, Nat.sub_diag by lia. }
  exists w2. unfold awaitPromise. rewrite Hp. split; [|split].
  - destruct r; simpl; try done. unfold errorOf, errorFromDrafts.
    destruct (q !! "error") as [v|]; [|done]. by destruct (truthy v) eqn:E; rewrite ?E.
  - done.
  - simpl. apply lookup_delete_eq.
Qed.



(** ** The draft read from a response *)




Lemma orElse_Some (t b : string) : t ≠ "" → orElse (Some t) b = t.
Proof. intros Ht. unfold orElse. by rewrite bool_decide_eq_false_2. Qed.



(** ** The retry loop in general *)

Lemma attempts_shape {T} env client (fn : Machine → Async T) n : ∀ retries m,
  Z.to_nat retries = n →
  let h := attempts env client fn retries m in
  1 ≤ length h ≤ S n
  ∧ (∀ k a, h !! k = Some a → S k < length h → failed a = true)
  ∧ (length h < S n → ∀ a, last h = Some a → failed a = false).
Proof.
  induction n as [|n IH]; intros retries m Hn; rewrite attempts_eq;
    destruct (fn m) as [[[e|v] m1]|] eqn:Hfn; simpl;
    try destruct (decide (retries > 0)%Z) as [Hgt|Hle]; try lia; simpl.
  all: try (split; [lia|]; split; [intros [|k] a Hk Hlt; simpl in *; lia|];
            intros Hlt; try lia; intros a [= <-]; done).
  destruct (IH (retries - 1)%Z (sleep env client m1)) as (Hlen & Hfail & Hlast); [lia|].
  split; [lia|]. split.
  - intros [|k] a Hk Hlt; simpl in *.
    + by injection Hk as <-.
    + apply (Hfail k a Hk). lia.
  - intros Hlt a Ha. rewrite last_cons in Ha.
    destruct (last (attempts env client fn (retries - 1) (sleep env client m1))) as [b|] eqn:Hb.
    + injection Ha as <-. apply Hlast; [lia|done].
    + apply last_None in Hb. rewrite Hb in Hlen. simpl in Hlen. lia.
Qed.

(** X10.  Whatever [fn] does, [executeWithRetry] calls it at least once and
    at most [retries + 1] times (once when [retries] is zero or negative);
    every call but the last threw; if fewer calls were made than allowed,
    the last one did not throw; and what the last call produced is what
    [executeWithRetry] produces. *)
Theorem executeWithRetry_stops {T : Type} (env : Env) (client : DraftsClient)
    (fn : Machine → Async T) (retries : Z) (m : Machine) :
  let h := attempts env client fn retries m in
  1 ≤ length h ≤ S (Z.to_nat retries)
  ∧ (∀ k a, h !! k = Some a → S k < length h → failed a = true)
  ∧ (length h < S (Z.to_nat retries) → ∀ a, last h = Some a → failed a = false)
  ∧ Forall (λ a, a.2 = fn a.1) h
  ∧ ∃ ml, last h = Some (ml, executeWithRetry env client fn retries m).
Proof.
  intros h.
  destruct (attempts_shape env client fn _ retries m eq_refl) as (Hlen & Hfail & Hlast).
  split; [done|]. split; [done|]. split; [done|]. split.
  - by apply (attempts_snd env client fn (Z.to_nat retries)).
  - by apply (attempts_last env client fn (Z.to_nat retries)).
Qed.

(** ** Operations from launch to result *)

Lemma parseDraft_content uuid text (response : gmap string string) :
  response !! "text" = Some text → text ≠ "" →
  ∃ d, parseDraft uuid response = inr d ∧ d_uuid d = uuid ∧ d_content d = text.
Proof.
  intros Ht Hne. unfold parseDraft. rewrite Ht, (orElse_Some text "") by done.
  rewrite (bool_decide_eq_false_2 (text = "")) by done. by eexists.
Qed.

(** X11.  When the server is listening, the launch succeeds and the
    application answers the first attempt of [getDraft] with a success
    callback whose query has a non-empty string [text], [getDraft] returns
    a draft with the requested uuid and that text as content, after one
    attempt: nothing is retried, no time passes, one URL was opened. *)
Theorem getDraft_success (env : Env) (client : DraftsClient) (uuid text : string)
    (m : Machine) (q : gmap string QueryValue) :
  server (this (world m)) = Listening →
  launch env (nOpen m) = Launched →
  during env (nOpen m) = [Http XSuccess (uuidOf env (nUuid m)) q] →
  q !! "text" = Some (QString text) → text ≠ "" →
  ∃ d m', getDraft env client uuid m = Some (inr d, m')
    ∧ d_uuid d = uuid ∧ d_content d = text
    ∧ length (attempts env client (getDraftAttempt env uuid) (maxRetries client) m) = 1
    ∧ nSleep m' = nSleep m
    ∧ now (rt (world m')) = now (rt (world m))
    ∧ length (opened m') = S (length (opened m)).
Proof.
  intros Hs Ho Hd Hq Hne.
  assert (Hfn : ∃ d w', getDraftAttempt env uuid m
                 = Some (inr d, mkMachine w' (S (nUuid m)) (S (nOpen m)) (nSleep m)
                                  (opened m ++ [(buildUrl (this (world m))
                                     (uuidOf env (nUuid m)) "get" [("uuid", PString uuid)]).1])
                                  (unawaited m))
               ∧ d_uuid d = uuid ∧ d_content d = text
               ∧ now (rt w') = now (rt (world m))).
  { unfold getDraftAttempt, invoke, buildUrlM, buildUrl.
    set (url := "drafts://x-callback-url/" +:+ _).
    set (m1 := mkMachine _ _ _ _ _ _).
    destruct (openUrl_answered env url (uuidOf env (nUuid m)) m1 XSuccess q Hs Ho Hd)
      as (w' & -> & Hn & _).
    assert (Ht : collectData q !! "text" = Some text) by (by apply collectData_spec).
    destruct (parseDraft_content uuid text (collectData q) Ht Hne) as (d & -> & Hu & Hc).
    by exists d, w'. }
  destruct Hfn as (d & w' & Hfn & Hu & Hc & Hn).
  exists d. eexists. unfold getDraft.
  rewrite executeWithRetry_eq, attempts_eq, Hfn. split; [reflexivity|].
  simpl. rewrite length_app. simpl. repeat split; try done; lia.
Qed.

Lemma getDraft_success_witness :
  let env := answering XSuccess [("text", "milk"); ("title", "Shopping")] 0 in
  let client := mkClient 3 1000 in
  ∃ d m', getDraft env client "U" started = Some (inr d, m')
    ∧ d_uuid d = "U" ∧ d_content d = "milk"
    ∧ length (attempts env client (getDraftAttempt env "U") (maxRetries client) started) = 1
    ∧ nSleep m' = nSleep started
    ∧ now (rt (world m')) = now (rt (world started))
    ∧ length (opened m') = S (length (opened started)).
Proof.
  apply (getDraft_success (answering XSuccess [("text", "milk"); ("title", "Shopping")] 0)
           (mkClient 3 1000) "U" "milk" started
           (query [("text", "milk"); ("title", "Shopping")])).
  - reflexivity.
  - reflexivity.
  - reflexivity.
  - reflexivity.
  - discriminate.
Defined.

(** ** Which operations come back *)

Lemma awaitPromise_inv p w x w' : Inv w → awaitPromise p w = Some (x, w') → Inv w'.
Proof.
  intros Hw. unfold awaitPromise.
  destruct (promises (rt w) !! p) as [[|v|e]|]; try (intros [= _ <-]; done); try done.
  destruct (map_to_list _) as [|[t tm] l]; [done|].
  destruct (promises (rt (advance _ w)) !! p) as [[|v|e]|]; try done.
  all: intros [= _ <-]; by apply advance_inv.
Qed.

Lemma openUrl_inv env url requestId m x m' :
  Inv (world m) → openUrl env url requestId m = Some (x, m') → Inv (world m').
Proof.
  intros Hw. unfold openUrl.
  pose proof (registerRequest_inv requestId _ Hw) as Hw1.
  rewrite registerRequest_eq in *. simpl in Hw1. set (w1 := mkWorld _ _) in *.
  pose proof (run_inv (during env (nOpen m)) w1 Hw1) as Hw2.
  destruct (launch env (nOpen m)); [|by intros [= _ <-]|done].
  destruct (awaitPromise _ _) as [[[e|response] w3]|] eqn:Ha; [| |done].
  - intros [= _ <-]. by eapply awaitPromise_inv.
  - destruct (negb (cr_success response)); intros [= _ <-]; by eapply awaitPromise_inv.
Qed.

(** After a launch that succeeded the promise is awaited. *)
Lemma openUrl_awaits env url requestId m x m' :
  launch env (nOpen m) = Launched → openUrl env url requestId m = Some (x, m') →
  unawaited m' = unawaited m.
Proof.
  intros Hl. unfold openUrl. rewrite registerRequest_eq, Hl.
  destruct (awaitPromise _ _) as [[[e|response] w3]|]; [| |done].
  - by intros [= _ <-].
  - by destruct (negb (cr_success response)); intros [= _ <-].
Qed.

Lemma invoke_returns {T} env endpoint params (k : gmap string string → Error + T) m :
  Inv (world m) → launch env (nOpen m) = Launched →
  ∃ x m', invoke env endpoint params k m = Some (x, m') ∧ Inv (world m')
          ∧ unawaited m' = unawaited m.
Proof.
  intros Hw Hl. unfold invoke, buildUrlM.
  destruct (buildUrl _ _ _ _) as [url id].
  set (m1 := mkMachine _ _ _ _ _ _).
  assert (Hl1 : launch env (nOpen m1) = Launched) by done.
  destruct (openUrl_total env url id m1 Hw) as [[x m2] Ho]; [by rewrite Hl1|].
  pose proof (openUrl_inv env url id m1 x m2 Hw Ho).
  pose proof (openUrl_awaits env url id m1 x m2 Hl1 Ho).
  rewrite Ho. destruct x; by eexists _, _.
Qed.

Lemma executeWithRetry_returns {T} env client (fn : Machine → Async T) :
  (∀ m, Inv (world m) →
        ∃ x m', fn m = Some (x, m') ∧ Inv (world m') ∧ unawaited m' = unawaited m) →
  ∀ n retries m, Z.to_nat retries = n → Inv (world m) →
  comesBack m (executeWithRetry env client fn retries m).
Proof.
  intros Hfn. induction n as [|n IH]; intros retries m Hn Hw;
    rewrite executeWithRetry_eq; destruct (Hfn m Hw) as ([e|v] & m1 & -> & Hw1 & Hu);
    try (by eexists _, _); destruct (decide (retries > 0)%Z);
    try (by eexists _, _); try lia.
  destruct (IH (retries - 1)%Z (sleep env client m1)) as (x & m' & Hex & Hu'); [lia| |].
  - unfold sleep. simpl. by apply advance_inv.
  - exists x, m'. split; [done|]. simpl in Hu'. congruence.
Qed.

Lemma executeWithRetry_hangs {T} env client (fn : Machine → Async T) retries m :
  fn m = None → executeWithRetry env client fn retries m = None.
Proof. intros H. by rewrite executeWithRetry_eq, H. Qed.

Lemma invoke_hangs {T} env endpoint params (k : gmap string string → Error + T) m :
  launch env (nOpen m) = LaunchHangs → invoke env endpoint params k m = None.
Proof.
  intros Hl. unfold invoke, buildUrlM. destruct (buildUrl _ _ _ _) as [url id].
  unfold openUrl. rewrite registerRequest_eq. simpl. by rewrite Hl.
Qed.

(** X12.  Which operations come back, for a client that has left no
    promise unawaited so far, from any world the server can reach.  If
    every launch of [open] succeeds then, whatever the application does,
    each of the seven operations of the client comes back with a value or
    an error (a request that is never answered is ended by its timer, and
    the number of attempts is bounded by the integer [maxRetries]), and
    every promise it registered has been awaited.  If
    the launch of the first attempt never returns, an operation that
    reaches it never comes back: the launch is awaited with no timeout.  If
    a launch fails, [openUrl] throws the launcher's error and leaves the
    promise it has registered behind: provided no callback for the
    identifier, no shutdown and fewer than 30000 ms came in the meantime,
    that promise is still pending with its timer running, and nothing
    awaits it. *)
Theorem operations_return (env : Env) (client : DraftsClient) (evs : list Event)
    (nu no ns : nat) (urls : list string) :
  let m := mkMachine (run evs initWorld) nu no ns urls [] in
  ((∀ k, launch env k = Launched) →
     (∀ text tags action folder,
        comesBack m (createDraft env client text tags action folder m))
     ∧ (∀ uuid, comesBack m (getDraft env client uuid m))
     ∧ (∀ uuid text, comesBack m (appendToDraft env client uuid text m))
     ∧ (∀ uuid text, comesBack m (prependToDraft env client uuid text m))
     ∧ (∀ uuid title, comesBack m (openDraft env client uuid title m))
     ∧ (∀ actionName text, comesBack m (runAction env client actionName text m))
     ∧ (∀ query tag folder, comesBack m (searchDrafts env client query tag folder m)))
  ∧ (launch env no = LaunchHangs →
     (∀ text tags action folder, createDraft env client text tags action folder m = None)
     ∧ (∀ uuid, getDraft env client uuid m = None)
     ∧ (∀ uuid text, appendToDraft env client uuid text m = None)
     ∧ (∀ uuid text, prependToDraft env client uuid text m = None)
     ∧ (∀ uuid title, missing uuid && missing title = false →
          openDraft env client uuid title m = None)
     ∧ (∀ actionName text, runAction env client actionName text m = None)
     ∧ (∀ query tag folder, searchDrafts env client query tag folder m = None))
  ∧ (∀ e url requestId,
       launch env no = LaunchFailed e →
       forallb (undisturbed requestId) (during env no) = true →
       (elapsed (during env no) < REQUEST_TIMEOUT)%Z →
       ∃ m', openUrl env url requestId m = Some (inl e, m')
         ∧ unawaited m' = [length (promises (rt (world m)))]
         ∧ promises (rt (world m')) !! length (promises (rt (world m))) = Some Pending
         ∧ timers (rt (world m')) !! nextTimer (rt (world m))
           = Some (mkTimer (now (rt (world m)) + 30000) requestId
                     (length (promises (rt (world m)))))).
Proof.
  intros m. assert (Hw : Inv (world m)) by (simpl; auto with inv).
  split; [|split].
  - intros Hl. repeat split; intros.
    all: eapply executeWithRetry_returns; [|reflexivity|exact Hw].
    all: try (intros m0 H0; by apply invoke_returns).
    intros m0 H0. unfold openDraftAttempt.
    destruct (missing uuid && missing title); [by eexists _, _|by apply invoke_returns].
  - intros Hl. repeat split; intros.
    all: apply executeWithRetry_hangs.
    all: try (by apply invoke_hangs).
    unfold openDraftAttempt. rewrite H. by apply invoke_hangs.
  - intros e url requestId Hl Hall Hel. unfold openUrl.
    pose proof (registerRequest_inv requestId _ Hw) as Hw1.
    rewrite registerRequest_eq in *. simpl in Hw1. set (w1 := mkWorld _ _) in *.
    change (nOpen m) with no. rewrite Hl. eexists. split; [reflexivity|]. simpl.
    split; [done|].
    set (w0 := run evs initWorld) in *.
    set (tm := mkTimer (now (rt w0) + REQUEST_TIMEOUT) requestId (length (promises (rt w0)))).
    assert (Htm : timers (rt w1) !! nextTimer (rt w0) = Some tm) by apply lookup_insert_eq.
    assert (Hlive : timers (rt (run (during env no) w1)) !! nextTimer (rt w0) = Some tm).
    { apply (undisturbed_live requestId); auto. rewrite run_now. simpl. lia. }
    pose proof (run_inv (during env no) w1 Hw1) as [Hr _].
    destruct (inv_timer _ Hr _ _ Hlive) as (_ & Hp & _). done.
Qed.

(** The application answers every launch with an error callback. *)
Lemma operations_return_witness :
  let env := answering XError [("error", "busy")] 0 in
  let client := mkClient 1 100 in
  (∀ text tags action folder,
     comesBack started (createDraft env client text tags action folder started))
  ∧ (∀ uuid, comesBack started (getDraft env client uuid started))
  ∧ (∀ uuid text, comesBack started (appendToDraft env client uuid text started))
  ∧ (∀ uuid text, comesBack started (prependToDraft env client uuid text started))
  ∧ (∀ uuid title, comesBack started (openDraft env client uuid title started))
  ∧ (∀ actionName text, comesBack started (runAction env client actionName text started))
  ∧ (∀ query tag folder,
       comesBack started (searchDrafts env client query tag folder started)).
Proof.
  apply (operations_return (answering XError [("error", "busy")] 0) (mkClient 1 100)
           [Start 49152 None] 0 0 0 []).
  intros k. reflexivity.
Defined.

(** ** Resource URIs *)

Lemma stripPrefix_app p s : stripPrefix p (p +:+ s) = Some s.
Proof.
  induction p as [|c p IH]; [done|].
  change (stripPrefix (String c p) (String c (p +:+ s)) = Some s).
  simpl. by rewrite bool_decide_eq_true_2.
Qed.

Lemma stripPrefix_Some p s rest : stripPrefix p s = Some rest → s = p +:+ rest.
Proof.
  revert s. induction p as [|c p IH]; intros s; simpl; [by intros [= ->]|].
  destruct s as [|d s]; [done|]. case_bool_decide as E; [|done].
  intros ->%IH. by subst d.
Qed.

(** X13.  The resource handler accepts exactly the URIs [draft://uuid/]
    followed by a non-empty text without line terminator, and hands that
    text, slashes and all, to [getDraft]; its answer is [getDraft]'s with
    the URI attached.  For any other URI it throws "Invalid resource URI:
    <uri>" at once: nothing is registered or opened and, unlike a failed
    validation in [openDraft], nothing is retried. *)
Theorem readResource_uri (env : Env) (client : DraftsClient) (uri : string) (m : Machine) :
  (∀ uuid, resourceUuid uri = Some uuid ↔
           uri = "draft://uuid/" +:+ uuid ∧ uuid ≠ "" ∧ hasLineTerminator uuid = false)
  ∧ (∀ uuid, resourceUuid uri = Some uuid →
       readResource env client uri m
       = match getDraft env client uuid m with
         | None => None
         | Some (inl e, m') => Some (inl e, m')
         | Some (inr draft, m') => Some (inr (uri, draft), m')
         end)
  ∧ (resourceUuid uri = None →
       readResource env client uri m
       = Some (inl (mkError ("Invalid resource URI: " +:+ uri)), m)).
Proof.
  split; [|split].
  - intros uuid. unfold resourceUuid. split.
    + destruct (stripPrefix _ uri) as [rest|] eqn:E; [|done].
      apply stripPrefix_Some in E.
      case_bool_decide as Hr; simpl; [done|].
      destruct (hasLineTerminator rest) eqn:Hl; [done|]. intros [= <-]. done.
    + intros (-> & Hne & Hl). rewrite stripPrefix_app, Hl.
      by rewrite bool_decide_eq_false_2.
  - intros uuid H. unfold readResource. by rewrite H.
  - intros H. unfold readResource. by rewrite H.
Qed.

(** ** The text that reaches SQL *)

Lemma readLiteralBody_plain a s :
  "'"%char ∉ chars a →
  readLiteralBody (a +:+ s) = (λ br, (a +:+ br.1, br.2)) <$> readLiteralBody s.
Proof.
  induction a as [|c a IH]; intros Ha.
  - change (readLiteralBody s = (λ br, (br.1, br.2)) <$> readLiteralBody s).
    by destruct (readLiteralBody s) as [[]|].
  - apply not_elem_of_cons in Ha as [Hc Ha].
    change (readLiteralBody (String c (a +:+ s))
            = (λ br, (String c (a +:+ br.1), br.2)) <$> readLiteralBody s).
    simpl. rewrite bool_decide_eq_false_2 by congruence. rewrite IH by done.
    by destruct (readLiteralBody s) as [[]|].
Qed.

Lemma readLiteralBody_sqlQuote t s :
  readLiteralBody (sqlQuote t +:+ s) = (λ br, (t +:+ br.1, br.2)) <$> readLiteralBody s.
Proof.
  induction t as [|c t IH].
  - change (readLiteralBody s = (λ br, (br.1, br.2)) <$> readLiteralBody s).
    by destruct (readLiteralBody s) as [[]|].
  - unfold sqlQuote. cbn [flatMapString]. fold (sqlQuote t). rewrite append_assoc.
    case_bool_decide as Hc.
    + subst c.
      change (readLiteralBody (String "'" (String "'" (sqlQuote t +:+ s)))
              = (λ br, (String "'" (t +:+ br.1), br.2)) <$> readLiteralBody s).
      simpl. rewrite IH. by destruct (readLiteralBody s) as [[]|].
    + change (readLiteralBody (String c (sqlQuote t +:+ s))
              = (λ br, (String c (t +:+ br.1), br.2)) <$> readLiteralBody s).
      simpl. rewrite bool_decide_eq_false_2 by done. rewrite IH.
      by destruct (readLiteralBody s) as [[]|].
Qed.

Lemma readLiteralBody_end rest :
  startsWithQuote rest = false → readLiteralBody ("'" +:+ rest) = Some ("", rest).
Proof.
  intros H. change (readLiteralBody (String "'" rest) = Some ("", rest)).
  simpl. destruct rest as [|d r]; [done|]. simpl in H. by rewrite H.
Qed.

Lemma readLiteral_likePattern t rest :
  startsWithQuote rest = false →
  readLiteral (likePattern t +:+ rest) = Some ("%" +:+ t +:+ "%", rest).
Proof.
  intros H. unfold likePattern.
  change (readLiteralBody (("%" +:+ sqlQuote t +:+ "%'") +:+ rest)
          = Some ("%" +:+ t +:+ "%", rest)).
  rewrite !append_assoc.
  rewrite (readLiteralBody_plain "%"), readLiteralBody_sqlQuote.
  - change ("%'" +:+ rest) with ("%" +:+ "'" +:+ rest).
    rewrite (readLiteralBody_plain "%"), readLiteralBody_end by
      (done || (intros [=]%list_elem_of_singleton)).
    done.
  - by intros [=]%list_elem_of_singleton.
Qed.

(** X14.  In the query of [searchDrafts] the search text occurs only
    inside the two [LIKE] literals, with each of its quotes doubled; read
    as SQL, each literal ends where the code closes it and its text is
    [%], the search text exactly as given, [%].  No search text can end a
    literal early or reach the rest of the statement. *)
Theorem searchDrafts_literals (searchText : string) :
  searchQuery searchText
  = searchPre +:+ likePattern searchText +:+ searchMid +:+ likePattern searchText
    +:+ searchPost
  ∧ readLiteral (likePattern searchText +:+ searchMid +:+ likePattern searchText
                 +:+ searchPost)
    = Some ("%" +:+ searchText +:+ "%",
            searchMid +:+ likePattern searchText +:+ searchPost)
  ∧ readLiteral (likePattern searchText +:+ searchPost)
    = Some ("%" +:+ searchText +:+ "%", searchPost).
Proof.
  split; [done|]. split; by apply readLiteral_likePattern.
Qed.

(** X15.  [getDraftContent] puts the uuid between quotes as it is.  For a
    uuid without a quote the literal read by SQL is that uuid.  For a uuid
    [a'b] (no quote in [a], [b] not empty and not starting with one) the
    literal ends after [a], and [b] is read as part of the statement. *)
Theorem getDraftContent_literal :
  (∀ uuid, contentQuery uuid = contentPre +:+ "'" +:+ uuid +:+ "'" +:+ contentPost)
  ∧ (∀ uuid, "'"%char ∉ chars uuid →
       readLiteral ("'" +:+ uuid +:+ "'" +:+ contentPost) = Some (uuid, contentPost))
  ∧ (∀ a b, "'"%char ∉ chars a → b ≠ "" → startsWithQuote b = false →
       readLiteral ("'" +:+ (a +:+ "'" +:+ b) +:+ "'" +:+ contentPost)
       = Some (a, b +:+ "'" +:+ contentPost)).
Proof.
  split; [done|]. split.
  - intros uuid Hu.
    change (readLiteralBody (uuid +:+ "'" +:+ contentPost) = Some (uuid, contentPost)).
    rewrite readLiteralBody_plain, readLiteralBody_end by done. simpl.
    assert (E : ∀ s, s +:+ "" = s) by (induction s as [|c s IH]; [done|];
      change (String c (s +:+ "") = String c s); by rewrite IH).
    by rewrite E.
  - intros a b Ha Hne Hb.
    change (readLiteralBody ((a +:+ "'" +:+ b) +:+ "'" +:+ contentPost)
            = Some (a, b +:+ "'" +:+ contentPost)).
    rewrite !append_assoc.
    rewrite readLiteralBody_plain by done.
    rewrite (readLiteralBody_end (b +:+ "'" +:+ contentPost)).
    + simpl. assert (E : ∀ s, s +:+ "" = s) by (induction s as [|c s IH]; [done|];
        change (String c (s +:+ "") = String c s); by rewrite IH).
      by rewrite E.
    + destruct b; [done|exact Hb].
Qed.

(** ** Where the two encodings differ *)



